(** * Network inventory tree: model of [main.py] and its properties

    The program keeps a small inventory of hosts and their hardware as a
    tree of Python objects, renders it as an ASCII diagram, looks hosts up
    by name and deep-copies trees.

    The development has two layers.
    - A value layer: the six node classes as records, with [_render],
      [draw] and [find_host] as total functions on them.  Python's
      unbounded [int] is [Z], [str] is [string], a Python list is a [list].
    - An object layer: a store of mutable objects with identities, on
      which the constructors, the [add_*] methods, attribute assignment
      and [copy.deepcopy] (hence [clone]) are modelled, so that statements
      about sharing between a tree and its clone can be made. *)

From Stdlib Require Import ZArith String Ascii List DecimalString DecimalZ Lia.
From stdpp Require Import base option list gmap strings.

Local Open Scope Z_scope.

(** ** Text primitives *)

(** The decimal numeral of an integer: what [str(i)] returns for a Python
    [int], and so what an f-string field [{i}] puts in the line, when the
    conversion returns.  CPython bounds the number of digits it converts;
    the bound is [format_int] below, and the renderers of this layer give
    the lines yielded when no conversion is refused. *)
Definition str_int (z : Z) : string := NilZero.string_of_int (Z.to_int z).

(** The one-character string ["\n"]. *)
Definition newline : string := String "010"%char EmptyString.

(** The expression ['\\-' if is_last else '+-'] that opens every rendered
    line of a child. *)
Definition connector (is_last : bool) : string :=
  if is_last then "\-" else "+-".

(** [len(l)] as a Python integer. *)
Definition len {A} (l : list A) : Z := Z.of_nat (length l).

(** Truth value of a list: [not l] holds for the empty list only. *)
Definition truthy {A} (l : list A) : bool :=
  match l with [] => false | _ :: _ => true end.

Fixpoint enumerate_from {A} (start : Z) (l : list A) : list (Z * A) :=
  match l with
  | [] => []
  | x :: l' => (start, x) :: enumerate_from (start + 1) l'
  end.

(** [enumerate(l)]: the items of [l] paired with their index from 0. *)
Definition enumerate {A} (l : list A) : list (Z * A) := enumerate_from 0 l.

(** ** The node classes (value layer)

    A generator method [_render(self, prefix, is_last)] is modelled by the
    list of the lines it yields, in order; [yield from] in a [for] loop is
    the list bind [x ← l; f x]. *)

Module Cpu.
Record t := mk { cores : Z; mhz : Z }.

Definition _render (self : t) (prefix : string) (is_last : bool) : list string :=
  [prefix +:+ connector is_last +:+ "CPU, " +:+ str_int self.(cores)
     +:+ " cores @ " +:+ str_int self.(mhz) +:+ "MHz"].
End Cpu.

Module Memory.
Record t := mk { mib : Z }.

Definition _render (self : t) (prefix : string) (is_last : bool) : list string :=
  [prefix +:+ connector is_last +:+ "Memory, " +:+ str_int self.(mib) +:+ " MiB"].
End Memory.

Module Partition.
Record t := mk { index : Z; gib : Z; role : string }.

Definition _render (self : t) (prefix : string) (is_last : bool) : list string :=
  [prefix +:+ connector is_last +:+ "[" +:+ str_int self.(index) +:+ "]: "
     +:+ str_int self.(gib) +:+ " GiB, " +:+ self.(role)].
End Partition.

Module Disk.
Record t := mk { gib : Z; parts : list Partition.t }.

Definition _render (self : t) (prefix : string) (is_last : bool) : list string :=
  let sub := prefix +:+ (if is_last then "  " else "| ") in
  [prefix +:+ connector is_last +:+ "HDD, " +:+ str_int self.(gib) +:+ " GiB"]
  ++ ('(i, p) ← enumerate self.(parts);
      Partition._render p sub (i =? len self.(parts) - 1)).
End Disk.

(** The components a host's [hw] list holds: a Cpu, a Memory or a Disk. *)
Module Hardware.
Inductive t :=
| OfCpu (c : Cpu.t)
| OfMemory (m : Memory.t)
| OfDisk (d : Disk.t).

(** Dynamic dispatch of [comp._render]. *)
Definition _render (comp : t) (prefix : string) (is_last : bool) : list string :=
  match comp with
  | OfCpu c => Cpu._render c prefix is_last
  | OfMemory m => Memory._render m prefix is_last
  | OfDisk d => Disk._render d prefix is_last
  end.
End Hardware.

Module Host.
Record t := mk { name : string; addrs : list string; hw : list Hardware.t }.

Definition _render (self : t) (prefix : string) (is_last : bool) : list string :=
  let sub := prefix +:+ (if is_last then "  " else "| ") in
  let total := len self.(addrs) + len self.(hw) in
  [prefix +:+ connector is_last +:+ "Host: " +:+ self.(name)]
  ++ ('(idx, ip) ← enumerate self.(addrs);
      let last_here := (idx =? total - 1) && negb (truthy self.(hw)) in
      [sub +:+ connector last_here +:+ ip])
  ++ ('(jdx, comp) ← enumerate self.(hw);
      let last := jdx =? len self.(hw) - 1 in
      Hardware._render comp sub last).
End Host.

Module Network.
Record t := mk { title : string; hosts : list Host.t }.

Fixpoint find_host_loop (hosts : list Host.t) (fqdn : string) : option Host.t :=
  match hosts with
  | [] => None
  | h :: rest =>
      if String.eqb h.(Host.name) fqdn then Some h
      else find_host_loop rest fqdn
  end.

(** [find_host]: the [for] loop over [self.hosts] returns at the first
    host whose name [==] the query; falling off the loop returns [None]. *)
Definition find_host (self : t) (fqdn : string) : option Host.t :=
  find_host_loop self.(hosts) fqdn.

Definition _render (self : t) (prefix : string) (is_last : bool) : list string :=
  ["Network: " +:+ self.(title)]
  ++ ('(i, h) ← enumerate self.(hosts);
      Host._render h "" (i =? len self.(hosts) - 1)).
End Network.

(** Any node: the receiver of the methods the base class [Node] defines. *)
Inductive Node :=
| NCpu (c : Cpu.t)
| NMemory (m : Memory.t)
| NPartition (p : Partition.t)
| NDisk (d : Disk.t)
| NHost (h : Host.t)
| NNetwork (n : Network.t).

Definition _render (self : Node) (prefix : string) (is_last : bool) : list string :=
  match self with
  | NCpu c => Cpu._render c prefix is_last
  | NMemory m => Memory._render m prefix is_last
  | NPartition p => Partition._render p prefix is_last
  | NDisk d => Disk._render d prefix is_last
  | NHost h => Host._render h prefix is_last
  | NNetwork n => Network._render n prefix is_last
  end.

(** [Node.draw]: every line of [self._render("", True)] is written to a
    fresh buffer followed by ["\n"]; the buffer's content is returned. *)
Definition draw (self : Node) : string :=
  fold_left (λ buf line, buf +:+ (line +:+ newline)) (_render self "" true) "".

(** ** The object layer

    Python objects are mutable and have an identity.  A store maps
    locations to objects that have been initialised; [next] is the first
    location never handed out, so that allocation is [next], [next + 1], ...
    An instance is its class with the values of its attributes, in the
    order [__init__] assigns them; a list object is its items.  Integers
    and strings are immutable and held by value. *)

Definition loc := nat.

Inductive val :=
| VInt (z : Z)
| VStr (s : string)
| VRef (l : loc).

Inductive cls := CCpu | CMemory | CPartition | CDisk | CHost | CNetwork.

Inductive kind :=
| KList
| KInst (c : cls).

Record obj := Obj { kind_of : kind; slots : list val }.

(** Attribute names of the instances of a class, in [__init__] order. *)
Definition fields (c : cls) : list string :=
  match c with
  | CCpu => ["cores"; "mhz"]
  | CMemory => ["mib"]
  | CPartition => ["index"; "gib"; "role"]
  | CDisk => ["gib"; "parts"]
  | CHost => ["name"; "addrs"; "hw"]
  | CNetwork => ["title"; "hosts"]
  end.

Record store := Store { cells : gmap loc obj; next : loc }.

Definition empty_store : store := Store ∅ 0%nat.

(** Every initialised object lies below [next]. *)
Definition store_wf (σ : store) : Prop :=
  map_Forall (λ l _, (l < next σ)%nat) (cells σ).

Definition alloc (o : obj) (σ : store) : loc * store :=
  (next σ, Store (<[next σ := o]> (cells σ)) (S (next σ))).

Fixpoint index_of (a : string) (names : list string) : option nat :=
  match names with
  | [] => None
  | b :: names' => if String.eqb a b then Some 0%nat else S <$> index_of a names'
  end.

(** [x.a] *)
Definition get_attr (σ : store) (x : loc) (a : string) : option val :=
  o ← cells σ !! x;
  match kind_of o with
  | KInst c => i ← index_of a (fields c); slots o !! i
  | KList => None
  end.

(** [x.a = v] for an attribute the instance has. *)
Definition set_attr (σ : store) (x : loc) (a : string) (v : val) : option store :=
  o ← cells σ !! x;
  match kind_of o with
  | KInst c =>
      i ← index_of a (fields c);
      _ ← slots o !! i;
      Some (Store (<[x := Obj (kind_of o) (<[i := v]> (slots o))]> (cells σ)) (next σ))
  | KList => None
  end.

(** [x[i]] for a list object [x] and [0 <= i < len(x)]. *)
Definition get_item (σ : store) (x : loc) (i : nat) : option val :=
  o ← cells σ !! x;
  match kind_of o with
  | KList => slots o !! i
  | KInst _ => None
  end.

(** [x.append(v)] for a list object [x]. *)
Definition list_append (σ : store) (x : loc) (v : val) : option store :=
  o ← cells σ !! x;
  match kind_of o with
  | KList => Some (Store (<[x := Obj KList (slots o ++ [v])]> (cells σ)) (next σ))
  | KInst _ => None
  end.

(** [getattr(x, a).append(v)], the body of every [add_*] method. *)
Definition attr_append (σ : store) (x : loc) (a : string) (v : val) : option store :=
  l ← get_attr σ x a;
  match l with
  | VRef l => list_append σ l v
  | _ => None
  end.

(** *** Constructors and [add_*] methods *)

Definition new_Cpu (cores mhz : Z) (σ : store) : loc * store :=
  alloc (Obj (KInst CCpu) [VInt cores; VInt mhz]) σ.

Definition new_Memory (mib : Z) (σ : store) : loc * store :=
  alloc (Obj (KInst CMemory) [VInt mib]) σ.

Definition new_Partition (index gib : Z) (role : string) (σ : store) : loc * store :=
  alloc (Obj (KInst CPartition) [VInt index; VInt gib; VStr role]) σ.

Definition new_Disk (gib : Z) (σ : store) : loc * store :=
  let '(parts, σ1) := alloc (Obj KList []) σ in
  alloc (Obj (KInst CDisk) [VInt gib; VRef parts]) σ1.

Definition new_Host (name : string) (σ : store) : loc * store :=
  let '(addrs, σ1) := alloc (Obj KList []) σ in
  let '(hw, σ2) := alloc (Obj KList []) σ1 in
  alloc (Obj (KInst CHost) [VStr name; VRef addrs; VRef hw]) σ2.

Definition new_Network (title : string) (σ : store) : loc * store :=
  let '(hosts, σ1) := alloc (Obj KList []) σ in
  alloc (Obj (KInst CNetwork) [VStr title; VRef hosts]) σ1.

Definition add_part (self part : loc) (σ : store) : option store :=
  attr_append σ self "parts" (VRef part).

Definition add_addr (self : loc) (ip : string) (σ : store) : option store :=
  attr_append σ self "addrs" (VStr ip).

Definition add_hw (self comp : loc) (σ : store) : option store :=
  attr_append σ self "hw" (VRef comp).

Definition add_host (self h : loc) (σ : store) : option store :=
  attr_append σ self "hosts" (VRef h).

(** *** [copy.deepcopy]

    [deepcopy(x, memo)] of the standard library: integers and strings are
    returned as they are; an object found in [memo] yields the copy
    recorded there; otherwise a new object of the same class (or a new
    list) is created and recorded in [memo] under [x] before the
    attribute values (the items) of [x] are copied in order, and is filled
    with the copies afterwards.  The new object is reserved by advancing
    [next] and enters [cells] when it is filled.  The recursion of
    [deepcopy] is bounded by [fuel]. *)

Record copying := Copying { heap : store; memo : gmap loc loc }.

Fixpoint copy_each (f : val → copying → option (val * copying))
    (vs : list val) (s : copying) : option (list val * copying) :=
  match vs with
  | [] => Some ([], s)
  | v :: vs' =>
      '(v', s1) ← f v s;
      '(vs'', s2) ← copy_each f vs' s1;
      Some (v' :: vs'', s2)
  end.

Fixpoint deepcopy (fuel : nat) (v : val) (s : copying) : option (val * copying) :=
  match v with
  | VInt _ | VStr _ => Some (v, s)
  | VRef x =>
      match memo s !! x with
      | Some y => Some (VRef y, s)
      | None =>
          match fuel with
          | O => None
          | S fuel' =>
              o ← cells (heap s) !! x;
              let y := next (heap s) in
              let s1 := Copying (Store (cells (heap s)) (S y)) (<[x := y]> (memo s)) in
              '(vs', s2) ← copy_each (deepcopy fuel') (slots o) s1;
              Some (VRef y,
                    Copying (Store (<[y := Obj (kind_of o) vs']> (cells (heap s2)))
                                   (next (heap s2)))
                            (memo s2))
          end
      end
  end.

(** [Node.clone]: [copy.deepcopy(self)], with a fresh [memo]. *)
Definition clone (fuel : nat) (σ : store) (self : loc) : option (loc * store) :=
  '(v, s) ← deepcopy fuel (VRef self) (Copying σ ∅);
  match v with
  | VRef self' => Some (self', heap s)
  | _ => None
  end.

(** *** Reading a tree off the store

    [snapshot n h v] is the tree of values found under [v] when references
    are followed at most [n] deep; it is undefined on a dangling reference
    or when [n] is too small. *)

#[warnings="-register-all"]
Inductive tree :=
| TInt (z : Z)
| TStr (s : string)
| TObj (k : kind) (ts : list tree).

Fixpoint snapshot (n : nat) (h : gmap loc obj) (v : val) : option tree :=
  match v with
  | VInt z => Some (TInt z)
  | VStr s => Some (TStr s)
  | VRef l =>
      match n with
      | O => None
      | S n' =>
          o ← h !! l;
          ts ← mapM (snapshot n' h) (slots o);
          Some (TObj (kind_of o) ts)
      end
  end.

(** The number of references on the longest path of a tree. *)
Fixpoint depth (t : tree) : nat :=
  match t with
  | TInt _ | TStr _ => O
  | TObj _ ts => S (max_list (depth <$> ts))
  end.

Definition list_of_tree {A} (f : tree → option A) (t : tree) : option (list A) :=
  match t with
  | TObj KList ts => mapM f ts
  | _ => None
  end.

Definition str_of_tree (t : tree) : option string :=
  match t with TStr s => Some s | _ => None end.

Definition Cpu_of_tree (t : tree) : option Cpu.t :=
  match t with
  | TObj (KInst CCpu) [TInt cores; TInt mhz] => Some (Cpu.mk cores mhz)
  | _ => None
  end.

Definition Memory_of_tree (t : tree) : option Memory.t :=
  match t with
  | TObj (KInst CMemory) [TInt mib] => Some (Memory.mk mib)
  | _ => None
  end.

Definition Partition_of_tree (t : tree) : option Partition.t :=
  match t with
  | TObj (KInst CPartition) [TInt index; TInt gib; TStr role] =>
      Some (Partition.mk index gib role)
  | _ => None
  end.

Definition Disk_of_tree (t : tree) : option Disk.t :=
  match t with
  | TObj (KInst CDisk) [TInt gib; parts] =>
      Disk.mk gib <$> list_of_tree Partition_of_tree parts
  | _ => None
  end.

Definition Hardware_of_tree (t : tree) : option Hardware.t :=
  match t with
  | TObj (KInst CCpu) _ => Hardware.OfCpu <$> Cpu_of_tree t
  | TObj (KInst CMemory) _ => Hardware.OfMemory <$> Memory_of_tree t
  | TObj (KInst CDisk) _ => Hardware.OfDisk <$> Disk_of_tree t
  | _ => None
  end.

Definition Host_of_tree (t : tree) : option Host.t :=
  match t with
  | TObj (KInst CHost) [TStr name; addrs; hw] =>
      a ← list_of_tree str_of_tree addrs;
      Host.mk name a <$> list_of_tree Hardware_of_tree hw
  | _ => None
  end.

Definition Network_of_tree (t : tree) : option Network.t :=
  match t with
  | TObj (KInst CNetwork) [TStr title; hosts] =>
      Network.mk title <$> list_of_tree Host_of_tree hosts
  | _ => None
  end.

Definition Node_of_tree (t : tree) : option Node :=
  match t with
  | TObj (KInst CCpu) _ => NCpu <$> Cpu_of_tree t
  | TObj (KInst CMemory) _ => NMemory <$> Memory_of_tree t
  | TObj (KInst CPartition) _ => NPartition <$> Partition_of_tree t
  | TObj (KInst CDisk) _ => NDisk <$> Disk_of_tree t
  | TObj (KInst CHost) _ => NHost <$> Host_of_tree t
  | TObj (KInst CNetwork) _ => NNetwork <$> Network_of_tree t
  | _ => None
  end.

(** A network is at most seven references deep: network, list of hosts,
    host, list of hardware, disk, list of partitions, partition. *)
Definition tree_depth : nat := 7.

Definition read_Network (σ : store) (x : loc) : option Network.t :=
  snapshot tree_depth (cells σ) (VRef x) ≫= Network_of_tree.

Definition read_Node (σ : store) (x : loc) : option Node :=
  snapshot tree_depth (cells σ) (VRef x) ≫= Node_of_tree.

(** [x.draw()] for the object at [x]. *)
Definition draw_at (σ : store) (x : loc) : option string :=
  draw <$> read_Node σ x.

(** [l] is the location of an object met when following references from
    [v]: the objects that make up the tree under [v]. *)
Inductive reachable (h : gmap loc obj) : val → loc → Prop :=
| reach_here l : reachable h (VRef l) l
| reach_step l o v l' :
    h !! l = Some o → v ∈ slots o → reachable h v l' →
    reachable h (VRef l) l'.

(** *** What holds while a tree of the store [h0] is being copied

    [h0] is the store when [clone] is called and [next0] its [next].
    [copy_inv]: the objects of [h0] are still there, unchanged; copies
    lie at [next0] or above, and refer to copies only.  [settled d]: the
    copy recorded in [memo] for an object whose tree is at most [d] deep is
    complete, and has the same tree.  [extends s s']: going from [s] to
    [s'] touched nothing below the [next] of [s], kept [memo], and every
    object newly recorded in [memo] has a complete copy. *)

Definition copy_inv (h0 : gmap loc obj) (next0 : loc) (s : copying) : Prop :=
  h0 ⊆ cells (heap s)
  ∧ (next0 ≤ next (heap s))%nat
  ∧ store_wf (heap s)
  ∧ (∀ x y, memo s !! x = Some y → (next0 ≤ y < next (heap s))%nat)
  ∧ (∀ l o l', cells (heap s) !! l = Some o → (next0 ≤ l)%nat →
               VRef l' ∈ slots o → (next0 ≤ l')%nat).

Definition settled (h0 : gmap loc obj) (d : nat) (s : copying) : Prop :=
  ∀ x y n t,
    memo s !! x = Some y → snapshot n h0 (VRef x) = Some t → (depth t ≤ d)%nat →
    snapshot n (cells (heap s)) (VRef y) = Some t.

Definition extends (h0 : gmap loc obj) (s s' : copying) : Prop :=
  (∀ l, (l < next (heap s))%nat → cells (heap s') !! l = cells (heap s) !! l)
  ∧ memo s ⊆ memo s'
  ∧ (next (heap s) ≤ next (heap s'))%nat
  ∧ (∀ x y n t,
       memo s' !! x = Some y → memo s !! x = None →
       snapshot n h0 (VRef x) = Some t →
       snapshot n (cells (heap s')) (VRef y) = Some t).

(** The statement proved of [deepcopy n], by induction on [n]. *)
Definition copies_well (h0 : gmap loc obj) (next0 : loc) (n : nat) : Prop :=
  ∀ v t s,
    snapshot n h0 v = Some t → copy_inv h0 next0 s → settled h0 (depth t) s →
    ∃ v' s', deepcopy n v s = Some (v', s')
             ∧ copy_inv h0 next0 s' ∧ extends h0 s s'
             ∧ snapshot n (cells (heap s')) v' = Some t
             ∧ (∀ l, v' = VRef l → (next0 ≤ l)%nat).

(** *** The script under [if __name__ == "__main__"]: the sample network *)

Definition sample : option (loc * store) :=
  let '(net, σ) := new_Network "MISIS network" empty_store in
  let '(h1, σ) := new_Host "server1.misis.ru" σ in
  σ ← add_addr h1 "192.168.1.1" σ;
  let '(c1, σ) := new_Cpu 4 2500 σ in
  σ ← add_hw h1 c1 σ;
  let '(m1, σ) := new_Memory 16000 σ in
  σ ← add_hw h1 m1 σ;
  σ ← add_host net h1 σ;
  let '(h2, σ) := new_Host "server2.misis.ru" σ in
  σ ← add_addr h2 "10.0.0.1" σ;
  let '(c2, σ) := new_Cpu 8 3200 σ in
  σ ← add_hw h2 c2 σ;
  let '(d, σ) := new_Disk 2000 σ in
  let '(p0, σ) := new_Partition 0 500 "system" σ in
  σ ← add_part d p0 σ;
  let '(p1, σ) := new_Partition 1 1500 "data" σ in
  σ ← add_part d p1 σ;
  σ ← add_hw h2 d σ;
  σ ← add_host net h2 σ;
  Some (net, σ).

Definition sample_store : store :=
  match sample with Some (_, σ) => σ | None => empty_store end.

Definition sample_net : loc :=
  match sample with Some (net, _) => net | None => 0%nat end.

(** The tree the script builds, as a value. *)
Definition sample_Network : Network.t :=
  Network.mk "MISIS network"
    [Host.mk "server1.misis.ru" ["192.168.1.1"]
       [Hardware.OfCpu (Cpu.mk 4 2500); Hardware.OfMemory (Memory.mk 16000)];
     Host.mk "server2.misis.ru" ["10.0.0.1"]
       [Hardware.OfCpu (Cpu.mk 8 3200);
        Hardware.OfDisk (Disk.mk 2000
          [Partition.mk 0 500 "system"; Partition.mk 1 1500 "data"])]].

(** [x.hosts[0]] *)
Definition first_host (σ : store) (x : loc) : option loc :=
  hosts ← get_attr σ x "hosts";
  match hosts with
  | VRef hosts =>
      h ← get_item σ hosts 0;
      match h with VRef h => Some h | _ => None end
  | _ => None
  end.

(** The end of the script: [copy_net = net.clone()], then
    [copy_net.hosts[0].name = "edited"]; the result is the pair of
    [net.hosts[0].name] and [copy_net.hosts[0].name] it prints. *)
Definition script_clone_edit : option (val * val) :=
  '(copy_net, σ) ← clone 7 sample_store sample_net;
  h ← first_host σ copy_net;
  σ ← set_attr σ h "name" (VStr "edited");
  h0 ← first_host σ sample_net;
  original ← get_attr σ h0 "name";
  h1 ← first_host σ copy_net;
  copied ← get_attr σ h1 "name";
  Some (original, copied).

(** ** The [add_*] methods on values

    [self.parts.append(part)] and its siblings put the item after the
    ones the collection holds. *)

Definition Disk_add_part (self : Disk.t) (part : Partition.t) : Disk.t :=
  Disk.mk self.(Disk.gib) (self.(Disk.parts) ++ [part]).

Definition Host_add_addr (self : Host.t) (ip : string) : Host.t :=
  Host.mk self.(Host.name) (self.(Host.addrs) ++ [ip]) self.(Host.hw).

Definition Host_add_hw (self : Host.t) (comp : Hardware.t) : Host.t :=
  Host.mk self.(Host.name) self.(Host.addrs) (self.(Host.hw) ++ [comp]).

Definition Network_add_host (self : Network.t) (h : Host.t) : Network.t :=
  Network.mk self.(Network.title) (self.(Network.hosts) ++ [h]).

(** ** More of the object layer *)

(** The items of the list object [x]. *)
Definition list_items (σ : store) (x : loc) : option (list val) :=
  o ← cells σ !! x;
  match kind_of o with
  | KList => Some (slots o)
  | KInst _ => None
  end.

(** [v == s] for a string [s]: a string equal to [s]; anything else is
    different from a string. *)
Definition val_eq_str (v : val) (s : string) : bool :=
  match v with
  | VStr s' => String.eqb s' s
  | _ => false
  end.

(** The loop of [find_host] over the items of [self.hosts]: the result is
    the object found ([Some (Some h)]), [None] of Python ([Some None]), or
    an exception ([None]: an item without a [name]). *)
Fixpoint find_host_in (σ : store) (items : list val) (fqdn : string)
    : option (option loc) :=
  match items with
  | [] => Some None
  | VRef h :: rest =>
      name ← get_attr σ h "name";
      if val_eq_str name fqdn then Some (Some h) else find_host_in σ rest fqdn
  | _ :: _ => None
  end.

(** [Network.find_host] on the object [self]. *)
Definition find_host_at (σ : store) (self : loc) (fqdn : string)
    : option (option loc) :=
  hosts ← get_attr σ self "hosts";
  match hosts with
  | VRef hosts => items ← list_items σ hosts; find_host_in σ items fqdn
  | _ => None
  end.

(** The locations met when following references from [v], at most [n]
    deep, as a list that can be computed. *)
Fixpoint footprint (n : nat) (h : gmap loc obj) (v : val) : list loc :=
  match v with
  | VRef l =>
      l :: match n with
           | O => []
           | S n' =>
               match h !! l with
               | Some o => slots o ≫= footprint n' h
               | None => []
               end
           end
  | _ => []
  end.

(** The greatest depth of the tree of a node of each class. *)
Definition class_depth (n : Node) : nat :=
  match n with
  | NCpu _ | NMemory _ | NPartition _ => 1
  | NDisk _ => 3
  | NHost _ => 5
  | NNetwork _ => 7
  end.

(** [r] is the result of a constructor called in [σ] for the node [n]:
    a new object that reads as [n], beside the objects of [σ]. *)
Definition constructs (σ : store) (r : loc * store) (n : Node) : Prop :=
  read_Node r.2 r.1 = Some n
  ∧ cells σ !! r.1 = None
  ∧ cells σ ⊆ cells r.2
  ∧ store_wf r.2.

(** The list object [l] of [h] whose items have the snapshots [ts], taken
    with [n] steps. *)
Definition list_at (n : nat) (h : gmap loc obj) (l : loc) (ts : list tree) : Prop :=
  ∃ items, h !! l = Some (Obj KList items)
           ∧ Forall2 (λ v t, snapshot n h v = Some t) items ts.

(** A hardware component as a node. *)
Definition Hardware_node (c : Hardware.t) : Node :=
  match c with
  | Hardware.OfCpu c => NCpu c
  | Hardware.OfMemory m => NMemory m
  | Hardware.OfDisk d => NDisk d
  end.

(** The sample store with three more objects, not yet part of any tree:
    a host, a disk and a partition. *)
Definition more_host : loc := (new_Host "server3.misis.ru" sample_store).1.

Definition more_disk : loc :=
  (new_Disk 500 (new_Host "server3.misis.ru" sample_store).2).1.

Definition more_part : loc :=
  (new_Partition 0 500 "swap"
     (new_Disk 500 (new_Host "server3.misis.ru" sample_store).2).2).1.

Definition more_store : store :=
  (new_Partition 0 500 "swap"
     (new_Disk 500 (new_Host "server3.misis.ru" sample_store).2).2).2.

(** [resolve h v path]: the value found from [v] by taking, in turn, the
    slot of each number in [path] ([x.a] for the attribute of that rank,
    [x[i]] for a list). *)
Fixpoint resolve (h : gmap loc obj) (v : val) (path : list nat) : option val :=
  match path with
  | [] => Some v
  | i :: path' =>
      match v with
      | VRef l => o ← h !! l; w ← slots o !! i; resolve h w path'
      | _ => None
      end
  end.

(** [v'] stands for [v] in a copy made with the memo [m]: the same
    integer or string, or the copy recorded for the object. *)
Definition copy_of (m : gmap loc loc) (v v' : val) : Prop :=
  match v with
  | VRef x => ∃ y, m !! x = Some y ∧ v' = VRef y
  | _ => v' = v
  end.

(** What [memo] records while copying: copies are objects handed out
    already, of objects that exist; no object is the copy of two; a copy
    that has been filled has the class of its original and, slot by slot,
    the copies of its values. *)
Definition memo_inv (s : copying) : Prop :=
  store_wf (heap s)
  ∧ (∀ x y, memo s !! x = Some y →
            (y < next (heap s))%nat ∧ is_Some (cells (heap s) !! x))
  ∧ (∀ x1 x2 y, memo s !! x1 = Some y → memo s !! x2 = Some y → x1 = x2)
  ∧ (∀ x y o', memo s !! x = Some y → cells (heap s) !! y = Some o' →
               ∃ o, cells (heap s) !! x = Some o
                    ∧ kind_of o' = kind_of o
                    ∧ Forall2 (copy_of (memo s)) (slots o) (slots o')).

(** How [s'] follows [s] in a copy: [memo] and [next] grow, objects
    handed out before stay as they are, and the copies newly recorded
    have been filled. *)
Definition memo_step (s s' : copying) : Prop :=
  memo s ⊆ memo s'
  ∧ (next (heap s) ≤ next (heap s'))%nat
  ∧ (∀ l, (l < next (heap s))%nat → cells (heap s') !! l = cells (heap s) !! l)
  ∧ (∀ x y, memo s' !! x = Some y → memo s !! x = None →
            is_Some (cells (heap s') !! y)).

(** A network whose two hosts hold the same Cpu object: [add_hw] is
    called with it on both. *)
Definition shared : option (loc * store) :=
  let '(net, σ) := new_Network "lab" empty_store in
  let '(h1, σ) := new_Host "a" σ in
  let '(h2, σ) := new_Host "b" σ in
  let '(c, σ) := new_Cpu 2 1000 σ in
  σ ← add_hw h1 c σ;
  σ ← add_hw h2 c σ;
  σ ← add_host net h1 σ;
  σ ← add_host net h2 σ;
  Some (net, σ).

Definition shared_store : store :=
  match shared with Some (_, σ) => σ | None => empty_store end.

Definition shared_net : loc :=
  match shared with Some (net, _) => net | None => 0%nat end.

Definition shared_Network : Network.t :=
  Network.mk "lab"
    [Host.mk "a" [] [Hardware.OfCpu (Cpu.mk 2 1000)];
     Host.mk "b" [] [Hardware.OfCpu (Cpu.mk 2 1000)]].

(** ** The limit on the conversion of integers to text

    CPython, from 3.11 on (the f-strings of [main.py] need 3.12), refuses
    to write in decimal an integer of more than
    [sys.int_info.default_max_str_digits] = 4300 digits, the sign not
    counted: [str(i)], and so the f-string field [{i}], raises
    [ValueError].  [main.py] leaves the limit at its default.  [str_int]
    is the numeral that the conversion returns when it returns;
    [format_int] is the conversion with its limit, [None] standing for
    the exception. *)

Definition int_max_str_digits : nat := 4300.

(** The number of decimal digits of [z], the sign not counted. *)
Definition str_digits (z : Z) : nat := String.length (str_int (Z.abs z)).

Definition format_int (z : Z) : option string :=
  if (str_digits z <=? int_max_str_digits)%nat then Some (str_int z) else None.

(** [Cpu._render] with the conversions as they are made: the fields of
    the f-string are evaluated from left to right, and an exception in
    one of them leaves the generator without a line. *)
Definition Cpu_render_checked (self : Cpu.t) (prefix : string) (is_last : bool)
    : option (list string) :=
  cores ← format_int self.(Cpu.cores);
  mhz ← format_int self.(Cpu.mhz);
  Some [prefix +:+ connector is_last +:+ "CPU, " +:+ cores
          +:+ " cores @ " +:+ mhz +:+ "MHz"].

(** ** Integers and strings as objects

    In the object layer above integers and strings are held by value,
    which is all that assignments and [append] can tell.  Here they are
    objects with an identity of their own, as in Python, and an attribute
    or a list item is the location of its object.  [deepcopy] is the same
    function, with the case of [copy._deepcopy_atomic] as it is written:
    for an [int] or a [str] it returns the object it was given. *)

Module Boxed.
Inductive obj :=
| BInt (z : Z)
| BStr (s : string)
| BObj (k : kind) (slots : list loc).

Record store := Store { cells : gmap loc obj; next : loc }.

Record copying := Copying { heap : store; memo : gmap loc loc }.

Fixpoint copy_each (f : loc → copying → option (loc * copying))
    (xs : list loc) (s : copying) : option (list loc * copying) :=
  match xs with
  | [] => Some ([], s)
  | x :: xs' =>
      '(y, s1) ← f x s;
      '(ys, s2) ← copy_each f xs' s1;
      Some (y :: ys, s2)
  end.

Fixpoint deepcopy (fuel : nat) (x : loc) (s : copying) : option (loc * copying) :=
  match memo s !! x with
  | Some y => Some (y, s)
  | None =>
      match cells (heap s) !! x with
      | None => None
      | Some (BInt _) | Some (BStr _) => Some (x, s)
      | Some (BObj k slots) =>
          match fuel with
          | O => None
          | S fuel' =>
              let y := next (heap s) in
              let s1 := Copying (Store (cells (heap s)) (S y)) (<[x := y]> (memo s)) in
              '(ys, s2) ← copy_each (deepcopy fuel') slots s1;
              Some (y,
                    Copying (Store (<[y := BObj k ys]> (cells (heap s2)))
                                   (next (heap s2)))
                            (memo s2))
          end
      end
  end.

(** [Node.clone] *)
Definition clone (fuel : nat) (σ : store) (self : loc) : option (loc * store) :=
  '(y, s) ← deepcopy fuel self (Copying σ ∅);
  Some (y, heap s).

(** The object found from [x] by the slots numbered in [path]. *)
Fixpoint resolve (h : gmap loc obj) (x : loc) (path : list nat) : option loc :=
  match path with
  | [] => Some x
  | i :: path' =>
      match h !! x with
      | Some (BObj _ slots) => y ← slots !! i; resolve h y path'
      | _ => None
      end
  end.

(** [net = Network("MISIS network")] with the one host
    [Host("server1.misis.ru")]: the network is the object 2, its title
    the object 0, its list of hosts the object 1; the host is the object
    5, its name the object 3, its two lists the objects 4 and 6. *)
Definition sample : store :=
  Store (list_to_map
           [(0%nat, BStr "MISIS network");
            (1%nat, BObj KList [5%nat]);
            (2%nat, BObj (KInst CNetwork) [0%nat; 1%nat]);
            (3%nat, BStr "server1.misis.ru");
            (4%nat, BObj KList []);
            (5%nat, BObj (KInst CHost) [3%nat; 4%nat; 6%nat]);
            (6%nat, BObj KList [])])
        7%nat.
End Boxed.

(** ** Definitions that follow the specification's wording *)

(** The prefix handed to the children of a composite rendered with
    [prefix] and [is_last]. *)
Definition child_prefix (prefix : string) (is_last : bool) : string :=
  prefix +:+ (if is_last then "  " else "| ").

(** The item at position [i] is the final one of [l]. *)
Definition final_in {A} (l : list A) (i : nat) : bool :=
  bool_decide (S i = length l).

(** An address is last when it is the final address and there is no
    hardware at all. *)
Definition addr_is_last (h : Host.t) (idx : nat) : bool :=
  bool_decide (S idx = length h.(Host.addrs) ∧ h.(Host.hw) = []).

(** [line] begins with the text [q]. *)
Definition starts_with (q line : string) : Prop := String.prefix q line = true.

(** The lines joined with newline terminators. *)
Definition terminated (lines : list string) : string :=
  foldr (λ line rest, line +:+ newline +:+ rest) "" lines.

(** One line per node of the subtree plus one line per address. *)
Definition Disk_lines (d : Disk.t) : nat := S (length d.(Disk.parts)).

Definition Hardware_lines (c : Hardware.t) : nat :=
  match c with
  | Hardware.OfCpu _ | Hardware.OfMemory _ => 1
  | Hardware.OfDisk d => Disk_lines d
  end.

Definition Host_lines (h : Host.t) : nat :=
  S (length h.(Host.addrs) + sum_list (Hardware_lines <$> h.(Host.hw))).

Definition Network_lines (n : Network.t) : nat :=
  S (sum_list (Host_lines <$> n.(Network.hosts))).


(** * Properties of rendering *)

Section Text.
Lemma string_app_cons (ch : ascii) (a b : string) :
  String ch a +:+ b = String ch (a +:+ b).
Proof. reflexivity. Qed.

Lemma string_app_assoc (a b c : string) : (a +:+ b) +:+ c = a +:+ (b +:+ c).
Proof.
  induction a as [|ch a IH]; [done |].
  by rewrite !string_app_cons, IH.
Qed.

Lemma string_app_nil_r (a : string) : a +:+ "" = a.
Proof.
  induction a as [|ch a IH]; [done |].
  by rewrite string_app_cons, IH.
Qed.

Lemma prefix_app (a b : string) : String.prefix a (a +:+ b) = true.
Proof.
  induction a as [|ch a IH]; [by destruct b |].
  rewrite string_app_cons. simpl.
  destruct (ascii_dec ch ch); [done | congruence].
Qed.

Lemma prefix_app_app (a b c : string) : String.prefix a ((a +:+ b) +:+ c) = true.
Proof. rewrite string_app_assoc. apply prefix_app. Qed.

End Text.

Section Enumerate.
Context {A B : Type}.
Implicit Types (l : list A) (k : Z).

Lemma bind_enumerate_from (f : Z → A → list B) k l :
  (enumerate_from k l ≫= λ '(i, x), f i x)
  = mjoin (imap (λ j x, f (k + Z.of_nat j) x) l).
Proof.
  revert k. induction l as [|a l IH]; intros k; [done |].
  cbn [enumerate_from]. rewrite bind_cons, IH, imap_cons. cbn [mjoin list_join].
  rewrite Z.add_0_r. do 2 f_equal. apply imap_ext. intros j x _. simpl.
  f_equal. lia.
Qed.

Lemma bind_enumerate (f : Z → A → list B) l :
  (enumerate l ≫= λ '(i, x), f i x) = mjoin (imap (λ j x, f (Z.of_nat j) x) l).
Proof. apply bind_enumerate_from. Qed.

Lemma join_imap_singleton (g : nat → A → B) l :
  mjoin (imap (λ j x, [g j x]) l) = imap g l.
Proof.
  revert g. induction l as [|a l IH]; intros g; [done |].
  rewrite !imap_cons. cbn [mjoin list_join app]. f_equal. apply (IH (g ∘ S)).
Qed.

Lemma index_is_final l (j : nat) :
  (Z.of_nat j =? len l - 1) = final_in l j.
Proof.
  unfold final_in, len. case_bool_decide; [apply Z.eqb_eq | apply Z.eqb_neq]; lia.
Qed.
End Enumerate.

(** Closed forms of the three composite renderers, with positions in
    place of the index arithmetic. *)
Lemma Disk_render_unfold (d : Disk.t) (p : string) (b : bool) :
  Disk._render d p b
  = (p +:+ connector b +:+ "HDD, " +:+ str_int d.(Disk.gib) +:+ " GiB")
      :: mjoin (imap (λ i part, Partition._render part (child_prefix p b)
                                  (final_in d.(Disk.parts) i)) d.(Disk.parts)).
Proof.
  unfold Disk._render. cbn [app]. f_equal.
  rewrite (bind_enumerate (λ i part, Partition._render part _ (i =? _))).
  f_equal. apply imap_ext. intros i x _. simpl. by rewrite index_is_final.
Qed.

Lemma addr_flag (h : Host.t) (idx : nat) :
  (Z.of_nat idx =? len h.(Host.addrs) + len h.(Host.hw) - 1)
    && negb (truthy h.(Host.hw))
  = addr_is_last h idx.
Proof.
  unfold addr_is_last, len. destruct (Host.hw h) as [|c hw]; simpl.
  - rewrite andb_true_r.
    case_bool_decide as H; [apply Z.eqb_eq | apply Z.eqb_neq]; [lia |].
    intros ?. apply H. split; [lia | done].
  - rewrite andb_false_r. symmetry. apply bool_decide_eq_false. by intros [_ ?].
Qed.

Lemma Host_render_unfold (h : Host.t) (p : string) (b : bool) :
  Host._render h p b
  = (p +:+ connector b +:+ "Host: " +:+ h.(Host.name))
      :: imap (λ idx ip, child_prefix p b +:+ connector (addr_is_last h idx) +:+ ip)
              h.(Host.addrs)
      ++ mjoin (imap (λ jdx comp, Hardware._render comp (child_prefix p b)
                                    (final_in h.(Host.hw) jdx)) h.(Host.hw)).
Proof.
  unfold Host._render. cbn [app]. f_equal. f_equal.
  - rewrite (bind_enumerate (λ idx ip, [_ +:+ connector ((idx =? _) && _) +:+ ip])).
    rewrite (join_imap_singleton (λ j ip, _ +:+ connector ((Z.of_nat j =? _) && _) +:+ ip)).
    apply imap_ext. intros i x _. simpl. by rewrite addr_flag.
  - rewrite (bind_enumerate (λ jdx comp, Hardware._render comp _ (jdx =? _))).
    f_equal. apply imap_ext. intros i x _. simpl. by rewrite index_is_final.
Qed.

Lemma Network_render_unfold (n : Network.t) (p : string) (b : bool) :
  Network._render n p b
  = ("Network: " +:+ n.(Network.title))
      :: mjoin (imap (λ i h, Host._render h "" (final_in n.(Network.hosts) i))
                     n.(Network.hosts)).
Proof.
  unfold Network._render. cbn [app]. f_equal.
  rewrite (bind_enumerate (λ i h, Host._render h _ (i =? _))).
  f_equal. apply imap_ext. intros i x _. simpl. by rewrite index_is_final.
Qed.

(** Every line a node yields starts with the prefix the node was given,
    the title line of a network apart. *)
Section Prefixes.
Lemma starts_with_app q r : starts_with q (q +:+ r).
Proof. apply prefix_app. Qed.

Lemma starts_with_iff q line : starts_with q line ↔ ∃ r, line = q +:+ r.
Proof.
  unfold starts_with. split.
  - revert line. induction q as [|ch q IH]; intros line H.
    + by exists line.
    + destruct line as [|ch' line]; [done |]. simpl in H.
      destruct (ascii_dec ch ch') as [->|]; [|done].
      destruct (IH _ H) as [r ->]. by exists r.
  - intros [r ->]. apply prefix_app.
Qed.

Lemma starts_with_weaken q x line : starts_with (q +:+ x) line → starts_with q line.
Proof.
  rewrite !starts_with_iff. intros [r ->]. exists (x +:+ r).
  apply string_app_assoc.
Qed.

Lemma Forall_join_imap {A} (P : string → Prop) (f : nat → A → list string) l :
  (∀ i x, Forall P (f i x)) → Forall P (mjoin (imap f l)).
Proof.
  intros Hf. revert f Hf. induction l as [|a l IH]; intros f Hf; [constructor |].
  rewrite imap_cons. cbn [mjoin list_join]. apply Forall_app. split; [apply Hf |].
  apply IH. intros i x. apply Hf.
Qed.

Lemma Partition_lines_prefix part q f :
  Forall (starts_with q) (Partition._render part q f).
Proof.
  repeat constructor. apply starts_with_app.
Qed.

Lemma Disk_lines_prefix d q f : Forall (starts_with q) (Disk._render d q f).
Proof.
  rewrite Disk_render_unfold. constructor.
  - apply starts_with_app.
  - apply Forall_join_imap. intros i part.
    eapply Forall_impl; [apply Partition_lines_prefix |].
    intros line. apply starts_with_weaken.
Qed.

Lemma Hardware_lines_prefix c q f : Forall (starts_with q) (Hardware._render c q f).
Proof.
  destruct c; simpl.
  - repeat constructor. apply starts_with_app.
  - repeat constructor. apply starts_with_app.
  - apply Disk_lines_prefix.
Qed.
End Prefixes.

Section Counting.
Lemma length_join_imap {A} (f : nat → A → list string) (g : A → nat) (l : list A) :
  (∀ i x, length (f i x) = g x) →
  length (mjoin (imap f l)) = sum_list (g <$> l).
Proof.
  intros Hf. revert f Hf. induction l as [|a l IH]; intros f Hf; [done |].
  rewrite imap_cons. cbn [mjoin list_join fmap list_fmap sum_list sum_list_with].
  rewrite length_app, Hf. f_equal. apply IH. intros i x. apply Hf.
Qed.

Lemma Disk_line_count d p b : length (Disk._render d p b) = Disk_lines d.
Proof.
  rewrite Disk_render_unfold. unfold Disk_lines. cbn [length]. f_equal.
  rewrite (length_join_imap _ (λ _, 1%nat)) by done.
  rewrite sum_list_fmap_const. lia.
Qed.

Lemma Hardware_line_count c p b :
  length (Hardware._render c p b) = Hardware_lines c.
Proof. destruct c; [done | done | apply Disk_line_count]. Qed.

Lemma Host_line_count h p b : length (Host._render h p b) = Host_lines h.
Proof.
  rewrite Host_render_unfold. unfold Host_lines. cbn [length]. f_equal.
  rewrite length_app, length_imap. f_equal.
  apply length_join_imap. intros. apply Hardware_line_count.
Qed.

Lemma Network_line_count n p b : length (Network._render n p b) = Network_lines n.
Proof.
  rewrite Network_render_unfold. unfold Network_lines. cbn [length]. f_equal.
  apply length_join_imap. intros. apply Host_line_count.
Qed.
End Counting.

Section Draw.
Lemma write_all lines buf :
  fold_left (λ buf line, buf +:+ (line +:+ newline)) lines buf
  = buf +:+ terminated lines.
Proof.
  revert buf. induction lines as [|l lines IH]; intros buf; simpl.
  - by rewrite string_app_nil_r.
  - by rewrite IH, !string_app_assoc.
Qed.

Lemma terminated_ends own rest :
  ∃ body, terminated (own :: rest) = body +:+ newline.
Proof.
  revert own. induction rest as [|l rest IH]; intros own.
  - exists own. simpl. by rewrite string_app_nil_r.
  - destruct (IH l) as [body Hb]. exists (own +:+ newline +:+ body).
    change (terminated (own :: l :: rest))
      with (own +:+ newline +:+ terminated (l :: rest)).
    by rewrite Hb, !string_app_assoc.
Qed.

Lemma render_first (n : Node) p b : ∃ own rest, _render n p b = own :: rest.
Proof.
  destruct n; simpl; try (by eexists _, []).
  - rewrite Disk_render_unfold. by eexists _, _.
  - rewrite Host_render_unfold. by eexists _, _.
  - rewrite Network_render_unfold. by eexists _, _.
Qed.
End Draw.

Section Search.
Lemma find_host_loop_Some hosts q h :
  Network.find_host_loop hosts q = Some h ↔
  ∃ i : nat, hosts !! i = Some h ∧ h.(Host.name) = q
             ∧ Forall (λ h', h'.(Host.name) ≠ q) (take i hosts).
Proof.
  induction hosts as [|h0 hosts IH]; simpl.
  - split; [done |]. by intros (i & ? & _).
  - destruct (String.eqb_spec (Host.name h0) q) as [Heq|Hne].
    + split.
      * intros [= ->]. exists 0%nat. repeat split; [done | constructor].
      * intros ([|i] & Hi & Hq & Hall); simpl in *; [done |].
        by apply Forall_cons_1 in Hall as [? _].
    + rewrite IH. split.
      * intros (i & Hi & Hq & Hall). exists (S i). simpl. by repeat split; [| | constructor].
      * intros ([|i] & Hi & Hq & Hall); simpl in *.
        -- by injection Hi as ->.
        -- exists i. apply Forall_cons_1 in Hall as [_ ?]. done.
Qed.

Lemma find_host_loop_None hosts q :
  Network.find_host_loop hosts q = None ↔
  Forall (λ h, h.(Host.name) ≠ q) hosts.
Proof.
  induction hosts as [|h0 hosts IH]; simpl.
  - split; [constructor | done].
  - destruct (String.eqb_spec (Host.name h0) q) as [Heq|Hne].
    + split; [done |]. by intros [? _]%Forall_cons_1.
    + rewrite IH. split; [by constructor | by intros [_ ?]%Forall_cons_1].
Qed.
End Search.

(** * The properties claimed of rendering and search *)

(** C1. The host [server1] with the single address 192.168.1.1, a
    Cpu(4, 2500) and a Memory(16000), rendered as the last top-level child
    (prefix [""], [is_last] true), yields exactly these four lines in this
    order. *)
Theorem host_mixed_children_lines :
  Host._render
    (Host.mk "server1" ["192.168.1.1"]
       [Hardware.OfCpu (Cpu.mk 4 2500); Hardware.OfMemory (Memory.mk 16000)])
    "" true
  = ["\-Host: server1";
     "  +-192.168.1.1";
     "  +-CPU, 4 cores @ 2500MHz";
     "  \-Memory, 16000 MiB"].
Proof. reflexivity. Qed.

(** C2. In the rendering of any host, the line of the address at position
    [idx] carries the last-sibling connector exactly when that address is
    the final one and the hardware list is empty, and the hardware item at
    position [jdx] is rendered with the last-sibling flag exactly when it
    is the final item of the hardware list, whatever the addresses are. *)
Theorem host_last_sibling (h : Host.t) (p : string) (b : bool) :
  Host._render h p b
  = (p +:+ connector b +:+ "Host: " +:+ h.(Host.name))
      :: imap (λ idx ip, child_prefix p b +:+ connector (addr_is_last h idx) +:+ ip)
              h.(Host.addrs)
      ++ mjoin (imap (λ jdx comp, Hardware._render comp (child_prefix p b)
                                    (final_in h.(Host.hw) jdx)) h.(Host.hw))
  ∧ (∀ idx, connector (addr_is_last h idx) = "\-"
            ↔ S idx = length h.(Host.addrs) ∧ h.(Host.hw) = [])
  ∧ (∀ jdx, final_in h.(Host.hw) jdx = true ↔ S jdx = length h.(Host.hw)).
Proof.
  split; [apply Host_render_unfold |]. split.
  - intros idx. unfold addr_is_last. case_bool_decide; simpl; [done |].
    split; [done | by intros ?].
  - intros jdx. unfold final_in. apply bool_decide_eq_true.
Qed.

(** C3, as claimed, fails for a network: drawn with prefix [""] and
    [is_last] true, its host is rendered with the prefix [""], not with
    [child_prefix "" true], which is two spaces. *)
Lemma network_children_prefix_counterexample :
  Network._render (Network.mk "n" [Host.mk "h" [] []]) "" true
  = ["Network: n"; "\-Host: h"]
  ∧ Network._render (Network.mk "n" [Host.mk "h" [] []]) "" true
    ≠ "Network: n" :: Host._render (Host.mk "h" [] []) (child_prefix "" true) true.
Proof. split; [reflexivity | discriminate]. Qed.

(** C3 (amended). A disk and a host rendered with prefix [p] and flag [b]
    render every child with the prefix [child_prefix p b], that is [p]
    followed by two spaces when [b] holds and by a bar and a space
    otherwise, and every line below their own starts with it; a network
    renders every host with the empty prefix, whatever [p] and [b] are. *)
Theorem children_prefix :
  (∀ d p b,
     Disk._render d p b
     = (p +:+ connector b +:+ "HDD, " +:+ str_int d.(Disk.gib) +:+ " GiB")
         :: mjoin (imap (λ i part, Partition._render part (child_prefix p b)
                                     (final_in d.(Disk.parts) i)) d.(Disk.parts))
     ∧ Forall (starts_with (child_prefix p b)) (tail (Disk._render d p b)))
  ∧ (∀ h p b,
     (∃ addr_lines,
        Host._render h p b
        = (p +:+ connector b +:+ "Host: " +:+ h.(Host.name))
            :: addr_lines
            ++ mjoin (imap (λ j comp, Hardware._render comp (child_prefix p b)
                                        (final_in h.(Host.hw) j)) h.(Host.hw))
        ∧ length addr_lines = length h.(Host.addrs))
     ∧ Forall (starts_with (child_prefix p b)) (tail (Host._render h p b)))
  ∧ (∀ n p b,
     Network._render n p b
     = ("Network: " +:+ n.(Network.title))
         :: mjoin (imap (λ i h, Host._render h "" (final_in n.(Network.hosts) i))
                        n.(Network.hosts))).
Proof.
  split; [|split].
  - intros d p b. split; [apply Disk_render_unfold |].
    rewrite Disk_render_unfold. cbn [tail].
    apply Forall_join_imap. intros. apply Partition_lines_prefix.
  - intros h p b. split.
    + eexists. split; [apply Host_render_unfold | apply length_imap].
    + rewrite Host_render_unfold. cbn [tail]. apply Forall_app. split.
      * apply Forall_forall. intros line (i & ip & -> & _)%elem_of_lookup_imap.
        apply starts_with_app.
      * apply Forall_join_imap. intros. apply Hardware_lines_prefix.
  - apply Network_render_unfold.
Qed.



(** When the conversions return, the line is the one of [Cpu._render]. *)
Lemma Cpu_render_checked_Some (c : Cpu.t) (p : string) (b : bool) (ls : list string) :
  Cpu_render_checked c p b = Some ls → ls = Cpu._render c p b.
Proof.
  unfold Cpu_render_checked, format_int. intros H.
  destruct (str_digits (Cpu.cores c) <=? int_max_str_digits)%nat; [|done].
  destruct (str_digits (Cpu.mhz c) <=? int_max_str_digits)%nat; [|done].
  simpl in H. by injection H as <-.
Qed.




(** C5. A host without addresses and without hardware renders as exactly
    one line: the prefix, the connector chosen by [is_last], and
    ["Host: "] followed by its name. *)
Theorem empty_host_single_line (name : string) (p : string) (b : bool) :
  Host._render (Host.mk name [] []) p b = [p +:+ connector b +:+ "Host: " +:+ name]
  ∧ connector true = "\-" ∧ connector false = "+-".
Proof. repeat split. Qed.

(** C6. [draw] of any node is the text of the lines of
    [_render "" true], each followed by a newline, so it ends with a
    newline; for a network the text starts with the line
    ["Network: <title>"], with neither prefix nor connector. *)
Theorem draw_terminated_lines :
  (∀ n : Node,
     draw n = terminated (_render n "" true)
     ∧ ∃ body, draw n = body +:+ newline)
  ∧ (∀ n : Network.t,
     ∃ rest, draw (NNetwork n)
             = "Network: " +:+ n.(Network.title) +:+ newline +:+ rest).
Proof.
  split.
  - intros n. unfold draw. rewrite write_all. simpl. split; [done |].
    destruct (render_first n "" true) as (own & rest & ->).
    apply terminated_ends.
  - intros n. unfold draw. rewrite write_all.
    cbn [_render]. rewrite Network_render_unfold. eexists.
    cbn [terminated foldr]. rewrite string_app_assoc. reflexivity.
Qed.

(** C7. [find_host] returns a host exactly when it is the first one, in
    insertion order, whose name is equal to the query as a string, and
    returns [None] exactly when no host has that name. *)
Theorem find_host_first_match (n : Network.t) (q : string) :
  (∀ h, Network.find_host n q = Some h ↔
        ∃ i : nat, n.(Network.hosts) !! i = Some h ∧ h.(Host.name) = q
                   ∧ Forall (λ h', h'.(Host.name) ≠ q) (take i n.(Network.hosts)))
  ∧ (Network.find_host n q = None ↔
     Forall (λ h, h.(Host.name) ≠ q) n.(Network.hosts)).
Proof.
  split; [intros h; apply find_host_loop_Some | apply find_host_loop_None].
Qed.

(** Names that differ in case only do not match, and of two hosts with
    the same name the one added first is found. *)
Example find_host_case_sensitive :
  Network.find_host
    (Network.mk "net" [Host.mk "server1.misis.ru" [] []]) "Server1.misis.ru" = None.
Proof. reflexivity. Qed.

Example find_host_duplicate :
  Network.find_host
    (Network.mk "net" [Host.mk "a" ["1"] []; Host.mk "b" [] []; Host.mk "a" ["2"] []]) "a"
  = Some (Host.mk "a" ["1"] []).
Proof. reflexivity. Qed.


(** * The object store: snapshots, reachability and [deepcopy] *)

Local Open Scope nat_scope.

Section Snapshots.
Implicit Types (h : gmap loc obj) (v : val) (t : tree) (l : loc).

Lemma max_list_bound (ns : list nat) (d : nat) :
  max_list ns ≤ d ↔ Forall (λ n, n ≤ d) ns.
Proof.
  induction ns as [|n ns IH]; simpl.
  - split; [constructor | lia].
  - rewrite Forall_cons, <- IH. lia.
Qed.

Lemma snapshot_ref n h l t :
  snapshot n h (VRef l) = Some t ↔
  ∃ n' o ts, n = S n' ∧ h !! l = Some o
             ∧ Forall2 (λ v t, snapshot n' h v = Some t) (slots o) ts
             ∧ t = TObj (kind_of o) ts.
Proof.
  destruct n as [|n']; simpl.
  - split; [done |]. by intros (? & ? & ? & ? & _).
  - split.
    + intros (o & Ho & (ts & Hts & [= <-])%bind_Some)%bind_Some.
      exists n', o, ts. by rewrite <- mapM_Some.
    + intros (? & o & ts & [= <-] & -> & Hts%mapM_Some & ->). simpl.
      by rewrite Hts.
Qed.

(** A snapshot taken with [n] steps is at most [n] deep. *)
Lemma snapshot_depth n h v t : snapshot n h v = Some t → depth t ≤ n.
Proof.
  revert v t. induction n as [|n IH]; intros [z|s|l] t H;
    try (by simplify_eq/=; lia).
  apply snapshot_ref in H as (n' & o & ts & [= <-] & _ & Hts & ->).
  simpl. apply le_n_S, max_list_bound, Forall_fmap.
  induction Hts as [|v' t' vs ts' Hv _ IHts]; constructor; eauto.
Qed.

(** Any number of steps that covers the depth gives the same snapshot. *)
Lemma snapshot_fuel n k h v t :
  snapshot n h v = Some t → depth t ≤ k → snapshot k h v = Some t.
Proof.
  revert k v t. induction n as [|n IH]; intros k [z|s|l] t H Hk;
    try (by destruct k).
  apply snapshot_ref in H as (n' & o & ts & [= <-] & Ho & Hts & ->).
  simpl in Hk. destruct k as [|k]; [lia |].
  apply snapshot_ref. exists k, o, ts. repeat split; try done.
  apply le_S_n, max_list_bound, Forall_fmap in Hk.
  induction Hts as [|v' t' vs ts' Hv _ IHts]; [constructor |].
  apply Forall_cons_1 in Hk as [? ?]. constructor; eauto.
Qed.

Lemma snapshot_det n k h v t t' :
  snapshot n h v = Some t → snapshot k h v = Some t' → t = t'.
Proof.
  intros H H'.
  pose proof (snapshot_depth _ _ _ _ H) as Hd.
  pose proof (snapshot_depth _ _ _ _ H') as Hd'.
  apply (snapshot_fuel _ (n `max` k)) in H; [|lia].
  apply (snapshot_fuel _ (n `max` k)) in H'; [|lia].
  congruence.
Qed.

(** Adding objects to a store keeps the snapshots it has. *)
Lemma snapshot_weaken n h h' v t :
  h ⊆ h' → snapshot n h v = Some t → snapshot n h' v = Some t.
Proof.
  intros Hsub. revert v t. induction n as [|n IH]; intros [z|s|l] t H;
    try done.
  apply snapshot_ref in H as (n' & o & ts & [= <-] & Ho & Hts & ->).
  apply snapshot_ref. exists n, o, ts. repeat split; try done.
  - by eapply lookup_weaken.
  - eapply Forall2_impl; [exact Hts |]. intros; by apply IH.
Qed.

(** A snapshot only looks at the objects reachable from its root. *)
Lemma snapshot_frame n h h' v :
  (∀ l, reachable h v l → h' !! l = h !! l) →
  snapshot n h' v = snapshot n h v.
Proof.
  revert v. induction n as [|n IH]; intros [z|s|l] Hsame; try done.
  simpl. rewrite (Hsame l) by constructor.
  destruct (h !! l) as [o|] eqn:Ho; [simpl | done].
  f_equal. apply Forall_mapM_ext, Forall_forall. intros v Hv.
  apply IH. intros l' Hl'. apply Hsame. by eapply reach_step.
Qed.

(** Whatever is reachable from the root of a snapshot of [h], in a
    store that extends [h], is an object of [h]. *)
Lemma reachable_in_snapshot h h' v l :
  h ⊆ h' → reachable h' v l →
  ∀ n t, snapshot n h v = Some t → is_Some (h !! l).
Proof.
  intros Hsub. induction 1 as [l|l o v l' Ho Hv _ IH]; intros n t Ht.
  - apply snapshot_ref in Ht as (? & ? & ? & _ & -> & _). by eexists.
  - apply snapshot_ref in Ht as (n' & o' & ts & -> & Ho' & Hts & _).
    assert (o' = o) as ->.
    { eapply lookup_weaken in Ho'; [|done]. congruence. }
    apply list_elem_of_lookup in Hv as [i Hi].
    destruct (Forall2_lookup_l _ _ _ _ _ Hts Hi) as (t' & _ & Ht').
    by eapply IH.
Qed.
End Snapshots.

Section Deepcopy.
Variables (h0 : gmap loc obj) (next0 : loc).
Implicit Types (s : copying) (v : val) (t : tree).

Lemma store_wf_lookup (σ : store) l o : store_wf σ → cells σ !! l = Some o → l < next σ.
Proof. intros Hwf Hl. by apply (map_Forall_lookup_1 _ _ _ _ Hwf Hl). Qed.

Lemma extends_cells s s' :
  store_wf (heap s) → extends h0 s s' → cells (heap s) ⊆ cells (heap s').
Proof.
  intros Hwf (Hframe & _). apply map_subseteq_spec. intros l o Hl.
  rewrite Hframe; [done |]. by eapply store_wf_lookup.
Qed.

Lemma extends_refl s : extends h0 s s.
Proof. repeat split; try done. intros x y n t H1 H2. congruence. Qed.

Lemma extends_trans s1 s2 s3 :
  store_wf (heap s2) → extends h0 s1 s2 → extends h0 s2 s3 → extends h0 s1 s3.
Proof.
  intros Hwf H12 H23. pose proof (extends_cells _ _ Hwf H23) as Hsub.
  destruct H12 as (Hf12 & Hm12 & Hn12 & Hnew12).
  destruct H23 as (Hf23 & Hm23 & Hn23 & Hnew23).
  repeat split.
  - intros l Hl. rewrite Hf23 by lia. by apply Hf12.
  - by etrans.
  - lia.
  - intros x y n t Hy Hnone Ht.
    destruct (memo s2 !! x) as [y'|] eqn:Hy'.
    + assert (y' = y) as -> by (eapply lookup_weaken in Hy'; [|done]; congruence).
      eapply snapshot_weaken; [done |]. by eapply Hnew12.
    + by eapply Hnew23.
Qed.

Lemma settled_le d d' s : settled h0 d s → d' ≤ d → settled h0 d' s.
Proof. intros Hs Hd x y n t Hy Ht Hdt. eapply Hs; [done | done | lia]. Qed.

Lemma settled_extends d s s' :
  store_wf (heap s) → settled h0 d s → extends h0 s s' → settled h0 d s'.
Proof.
  intros Hwf Hs Hext. pose proof (extends_cells _ _ Hwf Hext) as Hsub.
  destruct Hext as (_ & Hm & _ & Hnew).
  intros x y n t Hy Ht Hd.
  destruct (memo s !! x) as [y'|] eqn:Hy'.
  - assert (y' = y) as -> by (eapply lookup_weaken in Hy'; [|done]; congruence).
    eapply snapshot_weaken; [done |]. by eapply Hs.
  - by eapply Hnew.
Qed.

Lemma copy_each_spec n d vs ts s :
  copies_well h0 next0 n →
  Forall2 (λ v t, snapshot n h0 v = Some t) vs ts →
  Forall (λ t, depth t ≤ d) ts →
  copy_inv h0 next0 s → settled h0 d s →
  ∃ vs' s', copy_each (deepcopy n) vs s = Some (vs', s')
            ∧ copy_inv h0 next0 s' ∧ extends h0 s s'
            ∧ Forall2 (λ v' t, snapshot n (cells (heap s')) v' = Some t) vs' ts
            ∧ (∀ l, VRef l ∈ vs' → next0 ≤ l).
Proof.
  intros IH Hvs. revert s.
  induction Hvs as [|v t vs ts Hv _ IHvs]; intros s Hd Hinv Hset.
  - exists [], s. split; [done |]. split; [done |]. split; [apply extends_refl |].
    split; [constructor |]. intros l Hl. by apply elem_of_nil in Hl.
  - apply Forall_cons_1 in Hd as [Hdt Hd].
    destruct (IH v t s Hv Hinv) as (v' & s1 & Hcopy & Hinv1 & Hext1 & Hsnap1 & Hfresh1).
    { by eapply settled_le. }
    destruct (IHvs s1 Hd Hinv1) as (vs' & s2 & Hcopies & Hinv2 & Hext2 & Hsnap2 & Hfresh2).
    { eapply settled_extends; [apply Hinv | done | done]. }
    exists (v' :: vs'), s2. simpl. rewrite Hcopy. simpl. rewrite Hcopies. simpl.
    split; [done |]. split; [done |]. split; [|split].
    + eapply extends_trans; [apply Hinv1 | done | done].
    + constructor; [|done]. eapply snapshot_weaken; [|done].
      apply extends_cells; [apply Hinv1 | done].
    + intros l [[= <-]|Hl]%elem_of_cons; eauto.
Qed.
Lemma deepcopy_atomic n v t s :
  (∀ x, v ≠ VRef x) → snapshot n h0 v = Some t → copy_inv h0 next0 s →
  ∃ v' s', deepcopy n v s = Some (v', s')
           ∧ copy_inv h0 next0 s' ∧ extends h0 s s'
           ∧ snapshot n (cells (heap s')) v' = Some t
           ∧ (∀ l, v' = VRef l → next0 ≤ l).
Proof.
  intros Hv Ht Hinv. exists v, s.
  destruct v as [z|str|x]; [| |by destruct (Hv x)];
    (split; [by destruct n |]; split; [done |]; split; [apply extends_refl |];
     split; [by destruct n | done]).
Qed.

Lemma deepcopy_spec n : copies_well h0 next0 n.
Proof.
  induction n as [|n IH]; intros v t s Ht Hinv Hset.
  { destruct v as [z|str|x]; [by apply deepcopy_atomic..|done]. }
  destruct v as [z|str|x]; [by apply deepcopy_atomic..|].
  pose proof Ht as Ht0.
  apply snapshot_ref in Ht as (n' & o & ts & [= <-] & Ho & Hts & ->).
  change (snapshot (S n) h0 (VRef x) = Some (TObj (kind_of o) ts)) in Ht0.
  pose proof Hinv as (Hsub & Hnext & Hwf & Hmemo & Hclosed).
  cbn [deepcopy]. destruct (memo s !! x) as [y|] eqn:Hy.
  { exists (VRef y), s. split; [done |]. split; [done |].
    split; [apply extends_refl |]. split; [by eapply Hset |].
    intros l [= <-]. apply Hmemo in Hy. lia. }
  assert (cells (heap s) !! x = Some o) as Hx by (by eapply lookup_weaken).
  rewrite Hx. cbn [mbind option_bind].
  set (y := next (heap s)).
  set (d := max_list (depth <$> ts)).
  set (s1 := Copying (Store (cells (heap s)) (S y)) (<[x:=y]> (memo s))).
  assert (copy_inv h0 next0 s1) as Hinv1.
  { split; [done |]. split; [simpl; lia |]. split; [|split].
    - eapply map_Forall_impl; [exact Hwf |]. simpl. intros; subst y; lia.
    - intros x' y'. simpl. destruct (decide (x = x')) as [<-|Hne].
      + rewrite lookup_insert_eq. intros [= <-]. lia.
      + rewrite lookup_insert_ne by done. intros H%Hmemo. subst y. lia.
    - exact Hclosed. }
  assert (settled h0 d s1) as Hset1.
  { intros x' y' k t' Hy' Ht' Hd'. cbn [s1 heap cells memo] in Hy' |- *.
    destruct (decide (x = x')) as [<-|Hne].
    - pose proof (snapshot_det _ _ _ _ _ _ Ht' Ht0) as ->. simpl in Hd'.
      fold d in Hd'. lia.
    - rewrite lookup_insert_ne in Hy' by done.
      eapply Hset; [done | done |]. simpl. fold d. lia. }
  assert (Forall (λ t, depth t ≤ d) ts) as Hd.
  { apply (Forall_fmap depth (λ k, k ≤ d)). by apply max_list_bound. }
  destruct (copy_each_spec n d (slots o) ts s1 IH Hts Hd Hinv1 Hset1)
    as (vs' & s2 & Hcopy & Hinv2 & Hext2 & Hsnap2 & Hfresh2).
  fold y s1. rewrite Hcopy. cbn [mbind option_bind].
  pose proof (extends_cells _ _ (proj1 (proj2 (proj2 Hinv1))) Hext2) as Hsub12.
  destruct Hinv2 as (Hsub2 & Hnext2 & Hwf2 & Hmemo2 & Hclosed2).
  destruct Hext2 as (Hf2 & Hm2 & Hn2 & Hnew2). simpl in Hf2, Hm2, Hn2.
  assert (cells (heap s2) !! y = None) as Hnone.
  { rewrite Hf2 by lia. destruct (cells (heap s) !! y) as [o'|] eqn:Hy'; [|done].
    apply (store_wf_lookup _ _ _ Hwf) in Hy'. subst y. lia. }
  set (h' := <[y:=Obj (kind_of o) vs']> (cells (heap s2))).
  assert (cells (heap s2) ⊆ h') as Hsub'. { by apply insert_subseteq. }
  assert (snapshot (S n) h' (VRef y) = Some (TObj (kind_of o) ts)) as Hfinal.
  { apply snapshot_ref. exists n, (Obj (kind_of o) vs'), ts.
    split; [done |]. split; [apply lookup_insert_eq |]. split; [|done].
    eapply Forall2_impl; [exact Hsnap2 |]. intros. by eapply snapshot_weaken. }
  eexists _, _. split; [done |]. split; [|split; [|split]].
  - split; [by etrans |]. split; [done |]. split; [|split].
    + apply map_Forall_insert_2; [simpl; lia | done].
    + exact Hmemo2.
    + intros l o' l'. simpl. fold h'. unfold h'.
      destruct (decide (y = l)) as [<-|Hne].
      * rewrite lookup_insert_eq. intros [= <-] _ Hin. by apply Hfresh2.
      * rewrite lookup_insert_ne by done. apply Hclosed2.
  - split; [|split; [|split]].
    + intros l Hl. simpl. fold h'. unfold h'.
      rewrite lookup_insert_ne by (subst y; lia). apply Hf2. subst y; lia.
    + simpl. etrans; [|exact Hm2]. by apply insert_subseteq.
    + simpl. subst y. lia.
    + intros x' y' k t' Hy' Hnone' Ht'. cbn [heap cells memo] in Hy' |- *. fold h'.
      destruct (decide (x = x')) as [<-|Hne].
      * assert (y' = y) as ->.
        { eapply (lookup_weaken _ _ x y) in Hm2; [congruence |].
          apply lookup_insert_eq. }
        pose proof (snapshot_det _ _ _ _ _ _ Ht' Ht0) as ->.
        eapply snapshot_fuel; [exact Hfinal |]. by eapply snapshot_depth.
      * eapply snapshot_weaken; [exact Hsub' |].
        eapply Hnew2; [done | | done].
        unfold s1. cbn [memo]. by rewrite lookup_insert_ne.
  - exact Hfinal.
  - intros l [= <-]. subst y. lia.
Qed.
End Deepcopy.

Section Clone.
Implicit Types (σ : store) (r l : loc) (t : tree).

Lemma reachable_above (h : gmap loc obj) (bound : loc) v l :
  (∀ l o l', h !! l = Some o → bound ≤ l → VRef l' ∈ slots o → bound ≤ l') →
  reachable h v l → (∀ l0, v = VRef l0 → bound ≤ l0) → bound ≤ l.
Proof.
  intros Hclosed. induction 1 as [l|l o v l' Ho Hv _ IH]; intros Hroot.
  - by apply Hroot.
  - apply IH. intros l0 ->. eapply Hclosed; [done | by apply Hroot | done].
Qed.

(** [clone] of an object whose tree can be read returns a new object with
    the same tree; the store keeps what it had, and the objects of the
    copy are new ones. *)
Lemma clone_spec n σ r t :
  store_wf σ → snapshot n (cells σ) (VRef r) = Some t →
  ∃ r' σ', clone n σ r = Some (r', σ')
           ∧ cells σ ⊆ cells σ'
           ∧ store_wf σ'
           ∧ snapshot n (cells σ') (VRef r') = Some t
           ∧ (∀ l, reachable (cells σ') (VRef r') l → next σ ≤ l)
           ∧ (∀ l, reachable (cells σ') (VRef r) l → l < next σ).
Proof.
  intros Hwf Ht.
  destruct (deepcopy_spec (cells σ) (next σ) n (VRef r) t (Copying σ ∅) Ht)
    as (v' & s' & Hcopy & Hinv & Hext & Hsnap & Hfresh).
  { split; [done |]. split; [done |]. split; [done |]. split.
    - intros x y. simpl. by rewrite lookup_empty.
    - intros l o l' Hl Hge _. apply (store_wf_lookup _ _ _ Hwf) in Hl. lia. }
  { intros x y k t'. simpl. by rewrite lookup_empty. }
  destruct v' as [z|str|r'].
  { apply snapshot_ref in Ht as (? & ? & ? & _ & _ & _ & ->). by destruct n. }
  { apply snapshot_ref in Ht as (? & ? & ? & _ & _ & _ & ->). by destruct n. }
  destruct Hinv as (Hsub & _ & Hwf' & _ & Hclosed).
  exists r', (heap s'). unfold clone. rewrite Hcopy. simpl.
  split; [done |]. split; [done |]. split; [done |]. split; [done |]. split.
  - intros l Hl. eapply reachable_above; [exact Hclosed | exact Hl |].
    intros l0 [= <-]. by apply Hfresh.
  - intros l Hl.
    destruct (reachable_in_snapshot _ _ _ _ Hsub Hl _ _ Ht) as [o Ho].
    by eapply store_wf_lookup.
Qed.

(** The trees of the original and of the clone stand on disjoint sets of
    objects, so that neither can be changed through the other. *)
Lemma clone_separate n σ r t :
  store_wf σ → snapshot n (cells σ) (VRef r) = Some t →
  ∃ r' σ', clone n σ r = Some (r', σ')
    ∧ snapshot n (cells σ') (VRef r) = Some t
    ∧ snapshot n (cells σ') (VRef r') = Some t
    ∧ (∀ l, reachable (cells σ') (VRef r) l → ¬ reachable (cells σ') (VRef r') l)
    ∧ (∀ h'' : gmap loc obj,
         (∀ l, is_Some (cells σ' !! l) → ¬ reachable (cells σ') (VRef r') l →
               h'' !! l = cells σ' !! l) →
         snapshot n h'' (VRef r) = Some t)
    ∧ (∀ h'' : gmap loc obj,
         (∀ l, is_Some (cells σ' !! l) → ¬ reachable (cells σ') (VRef r) l →
               h'' !! l = cells σ' !! l) →
         snapshot n h'' (VRef r') = Some t).
Proof.
  intros Hwf Ht.
  destruct (clone_spec n σ r t Hwf Ht)
    as (r' & σ' & Hclone & Hsub & Hwf' & Hsnap & Hnew & Hold).
  pose proof (snapshot_weaken _ _ _ _ _ Hsub Ht) as Ht'.
  assert (∀ l, reachable (cells σ') (VRef r) l → ¬ reachable (cells σ') (VRef r') l)
    as Hdisj.
  { intros l Hl Hl'. apply Hold in Hl. apply Hnew in Hl'. lia. }
  exists r', σ'. split; [done |]. split; [done |]. split; [done |].
  split; [done |]. split.
  - intros h'' Hsame. rewrite <- Ht'. apply snapshot_frame. intros l Hl.
    apply Hsame; [|by apply Hdisj].
    by eapply (reachable_in_snapshot (cells σ') (cells σ')).
  - intros h'' Hsame. rewrite <- Hsnap. apply snapshot_frame. intros l Hl.
    apply Hsame.
    + by eapply (reachable_in_snapshot (cells σ') (cells σ')).
    + intros Hl'. by eapply Hdisj.
Qed.

Lemma read_Network_snapshot σ r (N : Network.t) :
  read_Network σ r = Some N ↔
  ∃ t, snapshot tree_depth (cells σ) (VRef r) = Some t ∧ Network_of_tree t = Some N.
Proof. unfold read_Network. apply bind_Some. Qed.

Lemma Node_of_Network_tree t (N : Network.t) :
  Network_of_tree t = Some N → Node_of_tree t = Some (NNetwork N).
Proof.
  destruct t as [| |[|[]] ts]; try done. simpl. by intros ->.
Qed.

Lemma read_Network_Node σ r (N : Network.t) :
  read_Network σ r = Some N → read_Node σ r = Some (NNetwork N).
Proof.
  intros (t & Ht & HN)%read_Network_snapshot. unfold read_Node. rewrite Ht. simpl.
  by apply Node_of_Network_tree.
Qed.
End Clone.

Section Assignment.
Implicit Types (σ : store) (o : obj) (x l : loc).

(** The operations that build and change trees keep the store well
    formed, starting from the empty store. *)
Lemma empty_store_wf : store_wf empty_store.
Proof. apply map_Forall_empty. Qed.

Lemma alloc_wf o σ : store_wf σ → store_wf (alloc o σ).2.
Proof.
  intros Hwf. apply map_Forall_insert_2; simpl; [lia |].
  eapply map_Forall_impl; [exact Hwf |]. simpl. intros; lia.
Qed.

Lemma update_wf σ x o o' :
  store_wf σ → cells σ !! x = Some o →
  store_wf (Store (<[x:=o']> (cells σ)) (next σ)).
Proof.
  intros Hwf Hx. apply map_Forall_insert_2; [|exact Hwf].
  simpl. by eapply store_wf_lookup.
Qed.

Lemma set_attr_wf σ σ' x a v : store_wf σ → set_attr σ x a v = Some σ' → store_wf σ'.
Proof.
  unfold set_attr. intros Hwf H.
  destruct (cells σ !! x) as [o|] eqn:Hx; [simpl in H | done].
  destruct (kind_of o) as [|c]; [done |].
  destruct (index_of a (fields c)) as [i|]; [simpl in H | done].
  destruct (slots o !! i); [simpl in H | done].
  injection H as <-. by eapply update_wf.
Qed.

Lemma list_append_wf σ σ' x v : store_wf σ → list_append σ x v = Some σ' → store_wf σ'.
Proof.
  unfold list_append. intros Hwf H.
  destruct (cells σ !! x) as [o|] eqn:Hx; [simpl in H | done].
  destruct (kind_of o); [|done]. injection H as <-. by eapply update_wf.
Qed.

Lemma attr_append_wf σ σ' x a v : store_wf σ → attr_append σ x a v = Some σ' → store_wf σ'.
Proof.
  unfold attr_append. intros Hwf H.
  destruct (get_attr σ x a) as [[| |l]|]; try done. by eapply list_append_wf.
Qed.

(** An assignment [x.a = v] changes the object [x] and nothing else. *)
Lemma set_attr_frame σ σ' x a v l :
  set_attr σ x a v = Some σ' → l ≠ x → cells σ' !! l = cells σ !! l.
Proof.
  unfold set_attr. intros H Hne.
  destruct (cells σ !! x) as [o|]; [simpl in H | done].
  destruct (kind_of o) as [|c]; [done |].
  destruct (index_of a (fields c)) as [i|]; [simpl in H | done].
  destruct (slots o !! i); [simpl in H | done].
  injection H as <-. simpl. by rewrite lookup_insert_ne.
Qed.
End Assignment.

(** * The properties claimed of [clone] *)


Lemma sample_store_wf : store_wf sample_store.
Proof. unfold store_wf. apply (bool_decide_unpack _). by vm_compute. Defined.

Lemma sample_store_read : read_Network sample_store sample_net = Some sample_Network.
Proof. by vm_compute. Defined.


(** [deepcopy] returns an integer or a string as the object it is. *)
Lemma Boxed_deepcopy_atomic (fuel : nat) (x : loc) (s : Boxed.copying) :
  Boxed.memo s !! x = None →
  (∃ z, Boxed.cells (Boxed.heap s) !! x = Some (Boxed.BInt z))
  ∨ (∃ t, Boxed.cells (Boxed.heap s) !! x = Some (Boxed.BStr t)) →
  Boxed.deepcopy fuel x s = Some (x, s).
Proof.
  intros Hm [[z Hx]|[t Hx]]; destruct fuel; simpl; by rewrite Hm, Hx.
Qed.


(** The script's own check: after the edit of the copy, the first host of
    the original still has its name. *)
Example script_clone_edit_result :
  script_clone_edit = Some (VStr "server1.misis.ru", VStr "edited").
Proof. by vm_compute. Qed.

(** C9. For a network [N], [draw] of [clone(N)] is the same text as
    [draw] of [N], rendered after the clone and before it. *)
Theorem clone_draws_same (σ : store) (r : loc) (N : Network.t) (fuel : nat) :
  store_wf σ → read_Network σ r = Some N → tree_depth ≤ fuel →
  ∃ r' σ',
    clone fuel σ r = Some (r', σ')
    ∧ draw_at σ' r' = draw_at σ' r
    ∧ draw_at σ' r = draw_at σ r
    ∧ draw_at σ r = Some (draw (NNetwork N)).
Proof.
  intros Hwf HN Hfuel. pose proof HN as (t & Ht & Ht')%read_Network_snapshot.
  pose proof (snapshot_depth _ _ _ _ Ht) as Hd.
  destruct (clone_spec fuel σ r t Hwf) as (r' & σ' & Hclone & Hsub & _ & Hsnap & _).
  { eapply snapshot_fuel; [done | lia]. }
  assert (read_Network σ' r = Some N) as Hr.
  { apply read_Network_snapshot. exists t. split; [|done]. by eapply snapshot_weaken. }
  assert (read_Network σ' r' = Some N) as Hr'.
  { apply read_Network_snapshot. exists t. split; [|done]. by eapply snapshot_fuel. }
  exists r', σ'. split; [done |]. unfold draw_at.
  by rewrite (read_Network_Node _ _ _ HN), (read_Network_Node _ _ _ Hr),
    (read_Network_Node _ _ _ Hr').
Qed.

(** The sample network of the script satisfies the hypotheses of C9. *)
Lemma clone_draws_same_witness :
  ∃ r' σ',
    clone 7 sample_store sample_net = Some (r', σ')
    ∧ draw_at σ' r' = draw_at σ' sample_net
    ∧ draw_at σ' sample_net = draw_at sample_store sample_net
    ∧ draw_at sample_store sample_net = Some (draw (NNetwork sample_Network)).
Proof.
  apply (clone_draws_same sample_store sample_net sample_Network 7).
  - exact sample_store_wf.
  - exact sample_store_read.
  - unfold tree_depth. lia.
Defined.

(** * Further properties of rendering and search *)

Local Open Scope Z_scope.

Section Indentation.
Lemma fmap_join_imap {A} (f : string → string) (g : nat → A → list string) (l : list A) :
  f <$> mjoin (imap g l) = mjoin (imap (λ i x, f <$> g i x) l).
Proof.
  revert g. induction l as [|a l IH]; intros g; [done |].
  rewrite !imap_cons. cbn [mjoin list_join]. rewrite fmap_app. f_equal. apply IH.
Qed.

Lemma child_prefix_app q p b : child_prefix (q +:+ p) b = q +:+ child_prefix p b.
Proof. unfold child_prefix. apply string_app_assoc. Qed.

Lemma Partition_render_app part q p b :
  Partition._render part (q +:+ p) b = String.append q <$> Partition._render part p b.
Proof. unfold Partition._render. simpl. by rewrite string_app_assoc. Qed.

Lemma Disk_render_app d q p b :
  Disk._render d (q +:+ p) b = String.append q <$> Disk._render d p b.
Proof.
  rewrite !Disk_render_unfold, fmap_cons, string_app_assoc. f_equal.
  rewrite fmap_join_imap. f_equal. apply imap_ext. intros i part _. simpl.
  by rewrite child_prefix_app, Partition_render_app.
Qed.

Lemma Hardware_render_app c q p b :
  Hardware._render c (q +:+ p) b = String.append q <$> Hardware._render c p b.
Proof.
  destruct c; cbn [Hardware._render].
  - unfold Cpu._render. simpl. by rewrite string_app_assoc.
  - unfold Memory._render. simpl. by rewrite string_app_assoc.
  - apply Disk_render_app.
Qed.

Lemma Host_render_app h q p b :
  Host._render h (q +:+ p) b = String.append q <$> Host._render h p b.
Proof.
  rewrite !Host_render_unfold, fmap_cons, string_app_assoc. f_equal.
  rewrite fmap_app, fmap_imap, fmap_join_imap. f_equal.
  - apply imap_ext. intros i ip _. simpl.
    by rewrite child_prefix_app, string_app_assoc.
  - f_equal. apply imap_ext. intros i c _. simpl.
    by rewrite child_prefix_app, Hardware_render_app.
Qed.
End Indentation.

(** X1. Indentation is uniform: rendering a node with the prefix [q]
    followed by [p] gives the lines of its rendering with [p], each with
    [q] put in front.  A network is the exception: its lines do not depend
    on the prefix or on the flag it is given. *)
Theorem render_prefix_prepends (n : Node) (q p : string) (b : bool) :
  _render n (q +:+ p) b
  = match n with
    | NNetwork net => Network._render net "" true
    | _ => String.append q <$> _render n p b
    end.
Proof.
  destruct n; cbn [_render].
  - unfold Cpu._render. simpl. by rewrite string_app_assoc.
  - unfold Memory._render. simpl. by rewrite string_app_assoc.
  - apply Partition_render_app.
  - apply Disk_render_app.
  - apply Host_render_app.
  - reflexivity.
Qed.

Section DrawParts.
Lemma terminated_app (a b : list string) :
  terminated (a ++ b) = terminated a +:+ terminated b.
Proof.
  induction a as [|l a IH]; [done |].
  cbn [app terminated foldr]. fold (terminated (a ++ b)) (terminated a).
  by rewrite IH, !string_app_assoc.
Qed.

Lemma draw_terminated (n : Node) : draw n = terminated (_render n "" true).
Proof. unfold draw. by rewrite write_all. Qed.

Lemma final_in_app_l {A} (l : list A) (x : A) (i : nat) :
  (i < length l)%nat → final_in (l ++ [x]) i = false.
Proof.
  intros Hi. unfold final_in. apply bool_decide_eq_false.
  rewrite length_app. simpl. lia.
Qed.

Lemma final_in_app_r {A} (l : list A) (x : A) :
  final_in (l ++ [x]) (length l) = true.
Proof.
  unfold final_in. apply bool_decide_eq_true. rewrite length_app. simpl. lia.
Qed.

Lemma join_imap_snoc {A} (g : bool → A → list string) (l : list A) (x : A) :
  mjoin (imap (λ i y, g (final_in (l ++ [x]) i) y) (l ++ [x]))
  = mjoin (imap (λ _ y, g false y) l) ++ g true x.
Proof.
  rewrite imap_app, join_app. f_equal.
  - f_equal. apply imap_ext. intros i y Hi. simpl.
    rewrite final_in_app_l; [done |]. by eapply lookup_lt_Some.
  - simpl. rewrite Nat.add_0_r, final_in_app_r. apply app_nil_r.
Qed.
End DrawParts.

(** X2. The text drawn for a network whose last host is [h] is the title
    line, then the hosts before [h] rendered as non-last top-level
    children, then exactly the text [draw] gives for [h] alone. *)
Theorem draw_network_last_host (title : string) (hs : list Host.t) (h : Host.t) :
  draw (NNetwork (Network.mk title (hs ++ [h])))
  = terminated (("Network: " +:+ title)
                  :: mjoin (imap (λ _ h', Host._render h' "" false) hs))
    +:+ draw (NHost h).
Proof.
  rewrite !draw_terminated. cbn [_render]. rewrite Network_render_unfold.
  cbn [Network.title Network.hosts].
  rewrite (join_imap_snoc (λ f h', Host._render h' "" f)).
  by rewrite app_comm_cons, terminated_app.
Qed.

(** X3. A host added to a network is found under its name unless an
    earlier host already has that name; lookups that succeeded before
    the addition return the same host after it. *)
Theorem find_host_add_host (n : Network.t) (h : Host.t) (q : string) :
  Network.find_host (Network_add_host n h) q
  = match Network.find_host n q with
    | Some found => Some found
    | None => if String.eqb h.(Host.name) q then Some h else None
    end.
Proof.
  unfold Network.find_host, Network_add_host. cbn [Network.hosts].
  induction (Network.hosts n) as [|h0 hosts IH]; simpl; [done |].
  by destruct (String.eqb (Host.name h0) q).
Qed.

(** X4. What an addition does to a rendering.  After [add_part] a disk
    renders its former partitions as non-last and the new one as last.
    After [add_hw] a host renders every address with [+-], its former
    hardware as non-last and the new component as last.  After [add_addr]
    a host renders its former addresses with [+-], then the new address,
    with [\-] when the host has no hardware and [+-] when it has, then its
    hardware as before.  After [add_host] a network renders its title,
    its former hosts as non-last and then the lines of the new host
    rendered as last.  So [add_addr] adds one line and [add_host] as many
    lines as the new host renders. *)
Theorem add_extends_rendering :
  (∀ d part p b,
     Disk._render (Disk_add_part d part) p b
     = (p +:+ connector b +:+ "HDD, " +:+ str_int d.(Disk.gib) +:+ " GiB")
         :: mjoin (imap (λ _ part', Partition._render part' (child_prefix p b) false)
                        d.(Disk.parts))
         ++ Partition._render part (child_prefix p b) true)
  ∧ (∀ h c p b,
     Host._render (Host_add_hw h c) p b
     = (p +:+ connector b +:+ "Host: " +:+ h.(Host.name))
         :: ((λ ip, child_prefix p b +:+ "+-" +:+ ip) <$> h.(Host.addrs))
         ++ mjoin (imap (λ _ c', Hardware._render c' (child_prefix p b) false)
                        h.(Host.hw))
         ++ Hardware._render c (child_prefix p b) true)
  ∧ (∀ h ip p b,
     Host._render (Host_add_addr h ip) p b
     = (p +:+ connector b +:+ "Host: " +:+ h.(Host.name))
         :: ((λ ip', child_prefix p b +:+ "+-" +:+ ip') <$> h.(Host.addrs))
         ++ [child_prefix p b +:+ connector (negb (truthy h.(Host.hw))) +:+ ip]
         ++ mjoin (imap (λ jdx comp, Hardware._render comp (child_prefix p b)
                                       (final_in h.(Host.hw) jdx)) h.(Host.hw)))
  ∧ (∀ n h p b,
     Network._render (Network_add_host n h) p b
     = ("Network: " +:+ n.(Network.title))
         :: mjoin (imap (λ _ h', Host._render h' "" false) n.(Network.hosts))
         ++ Host._render h "" true)
  ∧ (∀ h ip p b,
     length (Host._render (Host_add_addr h ip) p b) = S (length (Host._render h p b)))
  ∧ (∀ n h p b,
     length (Network._render (Network_add_host n h) p b)
     = (length (Network._render n p b) + length (Host._render h "" true))%nat).
Proof.
  split; [|split; [|split; [|split; [|split]]]].
  - intros d part p b. rewrite Disk_render_unfold. cbn [Disk_add_part Disk.gib Disk.parts].
    f_equal. apply (join_imap_snoc (λ f part', Partition._render part' _ f)).
  - intros h c p b. rewrite Host_render_unfold.
    cbn [Host_add_hw Host.name Host.addrs Host.hw]. f_equal. f_equal.
    + rewrite <- imap_const. apply imap_ext. intros i ip _. simpl.
      unfold addr_is_last. cbn [Host.hw Host.addrs].
      rewrite bool_decide_eq_false_2; [done |]. intros [_ H].
      unfold Host_add_hw in H. cbn [Host.hw] in H. by destruct (Host.hw h).
    + apply (join_imap_snoc (λ f c', Hardware._render c' _ f)).
  - intros h ip p b. rewrite Host_render_unfold.
    cbn [Host_add_addr Host.name Host.addrs Host.hw]. f_equal.
    rewrite imap_app, <- app_assoc. f_equal; [|f_equal].
    + rewrite <- imap_const. apply imap_ext. intros i ip' Hi%lookup_lt_Some. simpl.
      unfold addr_is_last, Host_add_addr. cbn [Host.hw Host.addrs].
      rewrite bool_decide_eq_false_2; [done |]. intros [H _].
      rewrite length_app in H. simpl in H. lia.
    + simpl. unfold addr_is_last, Host_add_addr. cbn [Host.hw Host.addrs].
      destruct (Host.hw h) as [|c hw]; simpl.
      * rewrite bool_decide_eq_true_2; [done |].
        split; [|done]. rewrite length_app. simpl. lia.
      * rewrite bool_decide_eq_false_2; [done |]. by intros [_ ?].
  - intros n h p b. rewrite Network_render_unfold.
    cbn [Network_add_host Network.title Network.hosts]. f_equal.
    apply (join_imap_snoc (λ f h', Host._render h' "" f)).
  - intros h ip p b. rewrite !Host_line_count. unfold Host_lines, Host_add_addr.
    cbn [Host.addrs Host.hw]. rewrite length_app. simpl. lia.
  - intros n h p b. rewrite !Network_line_count, Host_line_count.
    unfold Network_lines, Network_add_host. cbn [Network.hosts].
    rewrite fmap_app, sum_list_with_app. unfold Host_lines. simpl. lia.
Qed.

(** * Further properties of the object layer *)

Local Open Scope nat_scope.

Section Structure.
Implicit Types (h : gmap loc obj) (v : val) (t : tree) (l : loc).

Lemma snapshot_obj n h l o ts :
  h !! l = Some o →
  Forall2 (λ v t, snapshot n h v = Some t) (slots o) ts →
  snapshot (S n) h (VRef l) = Some (TObj (kind_of o) ts).
Proof. intros Ho Hts. apply snapshot_ref. by exists n, o, ts. Qed.

(** What is reachable from the root of a snapshot has a snapshot that is
    not deeper. *)
Lemma reachable_depth h v l :
  reachable h v l →
  ∀ n t, snapshot n h v = Some t →
         ∃ t', snapshot n h (VRef l) = Some t' ∧ depth t' ≤ depth t.
Proof.
  induction 1 as [l|l o v l' Ho Hv _ IH]; intros n t Ht; [by exists t |].
  apply snapshot_ref in Ht as (n' & o' & ts & -> & Ho' & Hts & ->).
  assert (o' = o) as -> by congruence.
  apply list_elem_of_lookup in Hv as [i Hi].
  destruct (Forall2_lookup_l _ _ _ _ _ Hts Hi) as (tv & Htv & Hv).
  destruct (IH _ _ Hv) as (t' & Ht' & Hd).
  assert (depth tv ≤ max_list (depth <$> ts)) as Hmax.
  { apply max_list_elem_of_le, list_elem_of_fmap. exists tv. split; [done |].
    by eapply list_elem_of_lookup_2. }
  exists t'. split; [|simpl; lia].
  eapply snapshot_fuel; [done |]. apply snapshot_depth in Hv. lia.
Qed.

(** An object that has a snapshot is not reachable from its own slots. *)
Lemma snapshot_acyclic n h l o v t :
  snapshot n h (VRef l) = Some t → h !! l = Some o → v ∈ slots o →
  ¬ reachable h v l.
Proof.
  intros Ht Ho Hv Hreach. pose proof Ht as Ht0.
  apply snapshot_ref in Ht as (n' & o' & ts & -> & Ho' & Hts & ->).
  assert (o' = o) as -> by congruence.
  apply list_elem_of_lookup in Hv as [i Hi].
  destruct (Forall2_lookup_l _ _ _ _ _ Hts Hi) as (tv & Htv & Hv).
  destruct (reachable_depth _ _ _ Hreach _ _ Hv) as (t' & Ht' & Hd).
  pose proof (snapshot_det _ _ _ _ _ _ Ht' Ht0) as ->.
  assert (depth tv ≤ max_list (depth <$> ts)) as Hmax.
  { apply max_list_elem_of_le, list_elem_of_fmap. exists tv. split; [done |].
    by eapply list_elem_of_lookup_2. }
  simpl in Hd. lia.
Qed.

(** Replacing an object does not change the snapshots that do not reach
    it. *)
Lemma snapshot_update n h l o v :
  ¬ reachable h v l → snapshot n (<[l:=o]> h) v = snapshot n h v.
Proof.
  intros Hl. apply snapshot_frame. intros l' Hl'.
  apply lookup_insert_ne. by intros ->.
Qed.

Lemma reachable_footprint n h v t l :
  snapshot n h v = Some t → reachable h v l → l ∈ footprint n h v.
Proof.
  intros Ht Hl. revert n t Ht.
  induction Hl as [l|l o v l' Ho Hv _ IH]; intros n t Ht.
  - destruct n; simpl; apply list_elem_of_here.
  - apply snapshot_ref in Ht as (n' & o' & ts & -> & Ho' & Hts & ->).
    assert (o' = o) as -> by congruence.
    simpl. rewrite Ho. apply list_elem_of_further, list_elem_of_bind.
    exists v. split; [|done].
    apply list_elem_of_lookup in Hv as [i Hi].
    destruct (Forall2_lookup_l _ _ _ _ _ Hts Hi) as (tv & _ & Htv).
    by eapply IH.
Qed.

Lemma reachable_atomic h v l : (∀ x, v ≠ VRef x) → ¬ reachable h v l.
Proof. intros Hv Hl. inversion Hl; subst; by eapply Hv. Qed.

(** From an object whose slots are all integers or strings nothing but
    the object is reachable. *)
Lemma reachable_leaf h x o l :
  h !! x = Some o → Forall (λ v, ∀ y, v ≠ VRef y) (slots o) →
  reachable h (VRef x) l → l = x.
Proof.
  intros Ho Hleaf Hl. inversion Hl as [|? o' v ? Ho' Hv Hreach]; subst; [done |].
  assert (o' = o) as -> by congruence.
  rewrite Forall_forall in Hleaf. by destruct (reachable_atomic h v l (Hleaf v Hv)).
Qed.
End Structure.

Section Shapes.
Implicit Types (h : gmap loc obj) (v : val) (t : tree) (l : loc).

Lemma snapshot_TInt n h v z : snapshot n h v = Some (TInt z) → v = VInt z.
Proof.
  destruct v as [z'|s|l]; [by destruct n; intros [= ->] | by destruct n |].
  by intros (? & ? & ? & _ & _ & _ & ?)%snapshot_ref.
Qed.

Lemma snapshot_TStr n h v s : snapshot n h v = Some (TStr s) → v = VStr s.
Proof.
  destruct v as [z'|s'|l]; [by destruct n | by destruct n; intros [= ->] |].
  by intros (? & ? & ? & _ & _ & _ & ?)%snapshot_ref.
Qed.

Lemma snapshot_TObj n h v k ts :
  snapshot n h v = Some (TObj k ts) →
  ∃ n' l vs, n = S n' ∧ v = VRef l ∧ h !! l = Some (Obj k vs)
             ∧ Forall2 (λ v t, snapshot n' h v = Some t) vs ts.
Proof.
  destruct v as [z'|s'|l]; [by destruct n | by destruct n |].
  intros (n' & [k' vs] & ts' & -> & Hl & Hts & [= -> ->])%snapshot_ref.
  by exists n', l, vs.
Qed.

Lemma Partition_of_tree_inv t p :
  Partition_of_tree t = Some p →
  t = TObj (KInst CPartition)
        [TInt p.(Partition.index); TInt p.(Partition.gib); TStr p.(Partition.role)].
Proof. unfold Partition_of_tree. intros H. repeat case_match; by simplify_eq. Qed.

Lemma Cpu_of_tree_inv t c :
  Cpu_of_tree t = Some c →
  t = TObj (KInst CCpu) [TInt c.(Cpu.cores); TInt c.(Cpu.mhz)].
Proof. unfold Cpu_of_tree. intros H. repeat case_match; by simplify_eq. Qed.

Lemma Memory_of_tree_inv t m :
  Memory_of_tree t = Some m → t = TObj (KInst CMemory) [TInt m.(Memory.mib)].
Proof. unfold Memory_of_tree. intros H. repeat case_match; by simplify_eq. Qed.

Lemma list_of_tree_inv {A} (f : tree → option A) t xs :
  list_of_tree f t = Some xs → ∃ ts, t = TObj KList ts ∧ mapM f ts = Some xs.
Proof. destruct t as [| |[|c] ts]; try done. intros H. by exists ts. Qed.

Lemma Disk_of_tree_inv t d :
  Disk_of_tree t = Some d →
  ∃ tps, t = TObj (KInst CDisk) [TInt d.(Disk.gib); TObj KList tps]
         ∧ mapM Partition_of_tree tps = Some d.(Disk.parts).
Proof.
  unfold Disk_of_tree. intros H. repeat case_match; try done.
  apply fmap_Some in H as (parts & (tps & -> & Hps)%list_of_tree_inv & ->).
  by exists tps.
Qed.

Lemma Host_of_tree_inv t x :
  Host_of_tree t = Some x →
  ∃ tas ths, t = TObj (KInst CHost) [TStr x.(Host.name); TObj KList tas; TObj KList ths]
             ∧ mapM str_of_tree tas = Some x.(Host.addrs)
             ∧ mapM Hardware_of_tree ths = Some x.(Host.hw).
Proof.
  unfold Host_of_tree. intros H. repeat case_match; try done.
  apply bind_Some in H as (addrs & (tas & -> & Has)%list_of_tree_inv & H).
  apply fmap_Some in H as (hw & (ths & -> & Hhw)%list_of_tree_inv & ->).
  by exists tas, ths.
Qed.

Lemma Network_of_tree_inv t x :
  Network_of_tree t = Some x →
  ∃ ths, t = TObj (KInst CNetwork) [TStr x.(Network.title); TObj KList ths]
         ∧ mapM Host_of_tree ths = Some x.(Network.hosts).
Proof.
  unfold Network_of_tree. intros H. repeat case_match; try done.
  apply fmap_Some in H as (hosts & (ths & -> & Hhs)%list_of_tree_inv & ->).
  by exists ths.
Qed.

Lemma depth_list (ts : list tree) (d : nat) :
  Forall (λ t, depth t ≤ d) ts → depth (TObj KList ts) ≤ S d.
Proof. intros H. simpl. apply le_n_S, max_list_bound. by apply Forall_fmap. Qed.

Lemma mapM_depth {A} (f : tree → option A) (ts : list tree) (xs : list A) (d : nat) :
  mapM f ts = Some xs → (∀ t x, f t = Some x → depth t ≤ d) →
  Forall (λ t, depth t ≤ d) ts.
Proof.
  intros H Hf. apply mapM_Some in H.
  induction H as [|t x ts xs Ht _ IH]; constructor; eauto.
Qed.

Lemma Disk_of_tree_depth t d : Disk_of_tree t = Some d → depth t ≤ 3.
Proof.
  intros (tps & -> & Hps)%Disk_of_tree_inv.
  assert (depth (TObj KList tps) ≤ 2) as Hd.
  { apply depth_list. eapply mapM_depth; [done |].
    by intros t p ->%Partition_of_tree_inv. }
  simpl in *. lia.
Qed.

Lemma Hardware_of_tree_depth t c : Hardware_of_tree t = Some c → depth t ≤ 3.
Proof.
  unfold Hardware_of_tree. intros H. repeat case_match; try done.
  - apply fmap_Some in H as (c' & ->%Cpu_of_tree_inv & _). simpl. lia.
  - apply fmap_Some in H as (c' & ->%Memory_of_tree_inv & _). simpl. lia.
  - apply fmap_Some in H as (c' & H%Disk_of_tree_depth & _). done.
Qed.

Lemma Host_of_tree_depth t x : Host_of_tree t = Some x → depth t ≤ 5.
Proof.
  intros (tas & ths & -> & Has & Hhw)%Host_of_tree_inv.
  assert (depth (TObj KList tas) ≤ 1) as Ha.
  { apply depth_list. eapply mapM_depth; [done |].
    intros t s. by destruct t. }
  assert (depth (TObj KList ths) ≤ 4) as Hh.
  { apply depth_list. eapply mapM_depth; [done |]. apply Hardware_of_tree_depth. }
  simpl in *. lia.
Qed.

Lemma Network_of_tree_depth t x : Network_of_tree t = Some x → depth t ≤ 7.
Proof.
  intros (ths & -> & Hhs)%Network_of_tree_inv.
  assert (depth (TObj KList ths) ≤ 6) as Hh.
  { apply depth_list. eapply mapM_depth; [done |]. apply Host_of_tree_depth. }
  simpl in *. lia.
Qed.

Lemma Node_of_tree_depth t n : Node_of_tree t = Some n → depth t ≤ class_depth n.
Proof.
  unfold Node_of_tree. intros H. repeat case_match; try done;
    apply fmap_Some in H as (x & Hx & ->).
  - apply Cpu_of_tree_inv in Hx. rewrite Hx. simpl. lia.
  - apply Memory_of_tree_inv in Hx. rewrite Hx. simpl. lia.
  - apply Partition_of_tree_inv in Hx. rewrite Hx. simpl. lia.
  - by eapply Disk_of_tree_depth.
  - by eapply Host_of_tree_depth.
  - by eapply Network_of_tree_depth.
Qed.

Lemma read_Node_snapshot (σ : store) (x : loc) (n : Node) :
  read_Node σ x = Some n ↔
  ∃ t, snapshot tree_depth (cells σ) (VRef x) = Some t ∧ Node_of_tree t = Some n.
Proof. unfold read_Node. apply bind_Some. Qed.

(** A node is read with as many steps as its class is deep. *)
Lemma read_Node_exact (σ : store) (x : loc) (n : Node) :
  read_Node σ x = Some n ↔
  ∃ t, snapshot (class_depth n) (cells σ) (VRef x) = Some t ∧ Node_of_tree t = Some n.
Proof.
  rewrite read_Node_snapshot. split; intros (t & Ht & Hn); exists t; (split; [|done]).
  - eapply snapshot_fuel; [done |]. by apply Node_of_tree_depth.
  - eapply snapshot_fuel; [done |]. apply snapshot_depth in Ht.
    destruct n; simpl in *; unfold tree_depth; lia.
Qed.
End Shapes.

Section Constructors.
Implicit Types σ : store.

Lemma store_wf_fresh σ l : store_wf σ → next σ ≤ l → cells σ !! l = None.
Proof.
  intros Hwf Hl. destruct (cells σ !! l) as [o|] eqn:Ho; [|done].
  apply (store_wf_lookup _ _ _ Hwf) in Ho. lia.
Qed.

Lemma snapshot_empty_list n (h : gmap loc obj) l :
  h !! l = Some (Obj KList []) → snapshot (S n) h (VRef l) = Some (TObj KList []).
Proof. intros Hl. by apply (snapshot_obj n h l (Obj KList []) []). Qed.

Lemma constructs_intro σ (x : loc) (σ' : store) (n : Node) t :
  snapshot (class_depth n) (cells σ') (VRef x) = Some t → Node_of_tree t = Some n →
  store_wf σ → next σ ≤ x →
  (∀ l, l < next σ → cells σ' !! l = cells σ !! l) →
  store_wf σ' →
  constructs σ (x, σ') n.
Proof.
  intros Ht Hn Hwf Hx Hframe Hwf'. split; [|split; [|split]]; simpl.
  - apply read_Node_exact. by exists t.
  - by apply store_wf_fresh.
  - apply map_subseteq_spec. intros l o Hl. rewrite Hframe; [done |].
    by eapply store_wf_lookup.
  - done.
Qed.
End Constructors.

Ltac store_lookups :=
  repeat first [rewrite lookup_insert_eq | rewrite lookup_insert_ne by lia].

Ltac store_wf_inserts Hwf :=
  repeat (apply map_Forall_insert_2; [simpl; lia |]);
  eapply map_Forall_impl; [exact Hwf |]; simpl; intros; lia.

(** X5. Every constructor returns a new object, distinct from all
    objects of the store it is called in, which it leaves as they are;
    the new node reads with the attributes given and with empty
    collections. *)
Theorem constructors_fresh_empty (σ : store) (i j : Z) (s : string) :
  store_wf σ →
  constructs σ (new_Cpu i j σ) (NCpu (Cpu.mk i j))
  ∧ constructs σ (new_Memory i σ) (NMemory (Memory.mk i))
  ∧ constructs σ (new_Partition i j s σ) (NPartition (Partition.mk i j s))
  ∧ constructs σ (new_Disk i σ) (NDisk (Disk.mk i []))
  ∧ constructs σ (new_Host s σ) (NHost (Host.mk s [] []))
  ∧ constructs σ (new_Network s σ) (NNetwork (Network.mk s [])).
Proof.
  intros Hwf. split; [|split; [|split; [|split; [|split]]]].
  - eapply (constructs_intro _ _ _ _ (TObj (KInst CCpu) [TInt i; TInt j]));
      [|done|done|simpl; lia| |by apply alloc_wf].
    + cbn [class_depth cells next]. eapply (snapshot_obj 0 _ _ (Obj _ _)); [apply lookup_insert_eq |].
      by repeat constructor.
    + intros l Hl. cbn [cells next]. by store_lookups.
  - eapply (constructs_intro _ _ _ _ (TObj (KInst CMemory) [TInt i]));
      [|done|done|simpl; lia| |by apply alloc_wf].
    + cbn [class_depth cells next]. eapply (snapshot_obj 0 _ _ (Obj _ _)); [apply lookup_insert_eq |].
      by repeat constructor.
    + intros l Hl. cbn [cells next]. by store_lookups.
  - eapply (constructs_intro _ _ _ _ (TObj (KInst CPartition) [TInt i; TInt j; TStr s]));
      [|done|done|simpl; lia| |by apply alloc_wf].
    + cbn [class_depth cells next]. eapply (snapshot_obj 0 _ _ (Obj _ _)); [apply lookup_insert_eq |].
      by repeat constructor.
    + intros l Hl. cbn [cells next]. by store_lookups.
  - eapply (constructs_intro _ _ _ _ (TObj (KInst CDisk) [TInt i; TObj KList []]));
      [|done|done|simpl; lia| |store_wf_inserts Hwf].
    + cbn [class_depth cells next]. eapply (snapshot_obj 2 _ _ (Obj _ _)); [apply lookup_insert_eq |].
      constructor; [done |]. constructor; [|constructor].
      apply snapshot_empty_list. by store_lookups.
    + intros l Hl. cbn [cells next]. by store_lookups.
  - eapply (constructs_intro _ _ _ _
              (TObj (KInst CHost) [TStr s; TObj KList []; TObj KList []]));
      [|done|done|simpl; lia| |store_wf_inserts Hwf].
    + cbn [class_depth cells next]. eapply (snapshot_obj 4 _ _ (Obj _ _)); [apply lookup_insert_eq |].
      constructor; [done |].
      constructor; [apply snapshot_empty_list; by store_lookups |].
      constructor; [apply snapshot_empty_list; by store_lookups | constructor].
    + intros l Hl. cbn [cells next]. by store_lookups.
  - eapply (constructs_intro _ _ _ _ (TObj (KInst CNetwork) [TStr s; TObj KList []]));
      [|done|done|simpl; lia| |store_wf_inserts Hwf].
    + cbn [class_depth cells next]. eapply (snapshot_obj 6 _ _ (Obj _ _)); [apply lookup_insert_eq |].
      constructor; [done |]. constructor; [|constructor].
      apply snapshot_empty_list. by store_lookups.
    + intros l Hl. cbn [cells next]. by store_lookups.
Qed.

(** In the empty store the constructors give what X5 states. *)
Lemma constructors_fresh_empty_witness :
  constructs empty_store (new_Cpu 4 2500 empty_store) (NCpu (Cpu.mk 4 2500))
  ∧ constructs empty_store (new_Memory 4 empty_store) (NMemory (Memory.mk 4))
  ∧ constructs empty_store (new_Partition 4 2500 "data" empty_store)
      (NPartition (Partition.mk 4 2500 "data"))
  ∧ constructs empty_store (new_Disk 4 empty_store) (NDisk (Disk.mk 4 []))
  ∧ constructs empty_store (new_Host "data" empty_store) (NHost (Host.mk "data" [] []))
  ∧ constructs empty_store (new_Network "data" empty_store)
      (NNetwork (Network.mk "data" [])).
Proof. apply (constructors_fresh_empty empty_store 4 2500 "data"), empty_store_wf. Defined.

Section Representation.
Implicit Types (σ : store) (h : gmap loc obj) (v : val) (t : tree) (l : loc).

Lemma Node_of_tree_Network t (N : Network.t) :
  Node_of_tree t = Some (NNetwork N) ↔ Network_of_tree t = Some N.
Proof.
  split.
  - unfold Node_of_tree. intros H. repeat case_match; try done;
      apply fmap_Some in H as (x & Hx & [=]). by subst.
  - apply Node_of_Network_tree.
Qed.

Lemma Node_of_tree_Host t (H : Host.t) :
  Node_of_tree t = Some (NHost H) ↔ Host_of_tree t = Some H.
Proof.
  split.
  - unfold Node_of_tree. intros Ht. repeat case_match; try done;
      apply fmap_Some in Ht as (x & Hx & [=]). by subst.
  - intros Ht. pose proof Ht as (? & ? & -> & _)%Host_of_tree_inv.
    cbn [Node_of_tree]. by rewrite Ht.
Qed.

Lemma Node_of_tree_Disk t (D : Disk.t) :
  Node_of_tree t = Some (NDisk D) ↔ Disk_of_tree t = Some D.
Proof.
  split.
  - unfold Node_of_tree. intros Ht. repeat case_match; try done;
      apply fmap_Some in Ht as (x & Hx & [=]). by subst.
  - intros Ht. pose proof Ht as (? & -> & _)%Disk_of_tree_inv.
    cbn [Node_of_tree]. by rewrite Ht.
Qed.

Lemma Node_of_tree_Partition t (P : Partition.t) :
  Node_of_tree t = Some (NPartition P) ↔ Partition_of_tree t = Some P.
Proof.
  split.
  - unfold Node_of_tree. intros Ht. repeat case_match; try done;
      apply fmap_Some in Ht as (x & Hx & [=]). by subst.
  - intros Ht. pose proof Ht as ->%Partition_of_tree_inv. by destruct P.
Qed.

Lemma mapM_snoc {A B} (f : A → option B) (l : list A) (k : list B) x y :
  mapM f l = Some k → f x = Some y → mapM f (l ++ [x]) = Some (k ++ [y]).
Proof.
  rewrite !mapM_Some. intros Hl Hx. apply Forall2_app; [done |]. by constructor.
Qed.

Lemma snapshot_list_at n h v ts :
  snapshot (S n) h v = Some (TObj KList ts) ↔ ∃ l, v = VRef l ∧ list_at n h l ts.
Proof.
  split.
  - intros (n' & l & vs & [= <-] & -> & Hl & Hvs)%snapshot_TObj.
    exists l. split; [done |]. by exists vs.
  - intros (l & -> & items & Hl & Hitems).
    by apply (snapshot_obj n h l (Obj KList items) ts).
Qed.

(** The objects that make up a network, a host, a disk. *)
Lemma Network_at σ x (N : Network.t) :
  read_Node σ x = Some (NNetwork N) ↔
  ∃ hl ths,
    cells σ !! x = Some (Obj (KInst CNetwork) [VStr N.(Network.title); VRef hl])
    ∧ list_at 5 (cells σ) hl ths
    ∧ mapM Host_of_tree ths = Some N.(Network.hosts).
Proof.
  rewrite read_Node_exact. cbn [class_depth]. split.
  - intros (t & Ht & (ths & -> & Hhs)%Node_of_tree_Network%Network_of_tree_inv).
    apply snapshot_TObj in Ht as (n' & l & vs & [= <-] & [= <-] & Hx & Hvs).
    apply Forall2_cons_inv_r in Hvs as (v0 & vs0 & ->%snapshot_TStr & Hvs & ->).
    apply Forall2_cons_inv_r in Hvs as (v1 & vs1 & Hv1 & ->%Forall2_nil_inv_r & ->).
    apply snapshot_list_at in Hv1 as (hl & -> & Hl).
    by exists hl, ths.
  - intros (hl & ths & Hx & Hl & Hhs).
    exists (TObj (KInst CNetwork) [TStr N.(Network.title); TObj KList ths]). split.
    + eapply (snapshot_obj 6 _ x (Obj _ _)); [done |].
      constructor; [done |]. constructor; [|constructor].
      apply snapshot_list_at. by exists hl.
    + apply Node_of_tree_Network. simpl. rewrite Hhs. by destruct N.
Qed.

Lemma Host_at σ x (H : Host.t) :
  read_Node σ x = Some (NHost H) ↔
  ∃ al hwl tas ths,
    cells σ !! x = Some (Obj (KInst CHost) [VStr H.(Host.name); VRef al; VRef hwl])
    ∧ list_at 3 (cells σ) al tas
    ∧ mapM str_of_tree tas = Some H.(Host.addrs)
    ∧ list_at 3 (cells σ) hwl ths
    ∧ mapM Hardware_of_tree ths = Some H.(Host.hw).
Proof.
  rewrite read_Node_exact. cbn [class_depth]. split.
  - intros (t & Ht & (tas & ths & -> & Has & Hhw)%Node_of_tree_Host%Host_of_tree_inv).
    apply snapshot_TObj in Ht as (n' & l & vs & [= <-] & [= <-] & Hx & Hvs).
    apply Forall2_cons_inv_r in Hvs as (v0 & vs0 & ->%snapshot_TStr & Hvs & ->).
    apply Forall2_cons_inv_r in Hvs as (v1 & vs1 & Hv1 & Hvs & ->).
    apply Forall2_cons_inv_r in Hvs as (v2 & vs2 & Hv2 & ->%Forall2_nil_inv_r & ->).
    apply snapshot_list_at in Hv1 as (al & -> & Hal).
    apply snapshot_list_at in Hv2 as (hwl & -> & Hhwl).
    by exists al, hwl, tas, ths.
  - intros (al & hwl & tas & ths & Hx & Hal & Has & Hhwl & Hhw).
    exists (TObj (KInst CHost) [TStr H.(Host.name); TObj KList tas; TObj KList ths]).
    split.
    + eapply (snapshot_obj 4 _ x (Obj _ _)); [done |].
      constructor; [done |].
      constructor; [apply snapshot_list_at; by exists al |].
      constructor; [apply snapshot_list_at; by exists hwl | constructor].
    + apply Node_of_tree_Host. simpl. rewrite Has. simpl. rewrite Hhw. by destruct H.
Qed.

Lemma Disk_at σ x (D : Disk.t) :
  read_Node σ x = Some (NDisk D) ↔
  ∃ pl tps,
    cells σ !! x = Some (Obj (KInst CDisk) [VInt D.(Disk.gib); VRef pl])
    ∧ list_at 1 (cells σ) pl tps
    ∧ mapM Partition_of_tree tps = Some D.(Disk.parts).
Proof.
  rewrite read_Node_exact. cbn [class_depth]. split.
  - intros (t & Ht & (tps & -> & Hps)%Node_of_tree_Disk%Disk_of_tree_inv).
    apply snapshot_TObj in Ht as (n' & l & vs & [= <-] & [= <-] & Hx & Hvs).
    apply Forall2_cons_inv_r in Hvs as (v0 & vs0 & ->%snapshot_TInt & Hvs & ->).
    apply Forall2_cons_inv_r in Hvs as (v1 & vs1 & Hv1 & ->%Forall2_nil_inv_r & ->).
    apply snapshot_list_at in Hv1 as (pl & -> & Hl).
    by exists pl, tps.
  - intros (pl & tps & Hx & Hl & Hps).
    exists (TObj (KInst CDisk) [TInt D.(Disk.gib); TObj KList tps]). split.
    + eapply (snapshot_obj 2 _ x (Obj _ _)); [done |].
      constructor; [done |]. constructor; [|constructor].
      apply snapshot_list_at. by exists pl.
    + apply Node_of_tree_Disk. simpl. rewrite Hps. by destruct D.
Qed.
End Representation.

Section Appending.
Implicit Types (σ : store) (h : gmap loc obj) (v : val) (t : tree) (l : loc).

Lemma snapshot_frame_except n h h' l v :
  (∀ l', l' ≠ l → h' !! l' = h !! l') → ¬ reachable h v l →
  snapshot n h' v = snapshot n h v.
Proof.
  intros Hsame Hl. apply snapshot_frame. intros l' Hl'. apply Hsame. by intros ->.
Qed.

Lemma list_at_frame_except n h h' l a ts :
  (∀ l', l' ≠ l → h' !! l' = h !! l') → ¬ reachable h (VRef a) l →
  list_at n h a ts → list_at n h' a ts.
Proof.
  intros Hsame Hl Ha.
  assert (snapshot (S n) h' (VRef a) = Some (TObj KList ts)) as H.
  { rewrite (snapshot_frame_except _ _ _ _ _ Hsame Hl).
    apply snapshot_list_at. by exists a. }
  by apply snapshot_list_at in H as (? & [= <-] & ?).
Qed.

(** [l.append(v)]: the list gets the item as its last one; nothing else
    changes in the store. *)
Lemma list_at_append n σ l ts v tv :
  list_at n (cells σ) l ts → snapshot n (cells σ) v = Some tv →
  ¬ reachable (cells σ) v l →
  ∃ σ', list_append σ l v = Some σ'
        ∧ next σ' = next σ
        ∧ (∀ l', l' ≠ l → cells σ' !! l' = cells σ !! l')
        ∧ list_at n (cells σ') l (ts ++ [tv]).
Proof.
  intros Hl Hv Hnr. pose proof Hl as (items & Hitems & Hts).
  unfold list_append. rewrite Hitems. simpl. eexists. split; [done |]. simpl.
  split; [done |]. split; [intros l' Hl'; by apply lookup_insert_ne |].
  exists (items ++ [v]). split; [apply lookup_insert_eq |].
  assert (snapshot (S n) (cells σ) (VRef l) = Some (TObj KList ts)) as Hsnap.
  { apply snapshot_list_at. by exists l. }
  apply Forall2_app.
  - apply Forall2_same_length_lookup. split; [by eapply Forall2_length |].
    intros i w t Hw Ht. rewrite snapshot_update.
    + by apply (Forall2_lookup_lr _ _ _ _ _ _ Hts Hw Ht).
    + eapply snapshot_acyclic; [done | done |]. by eapply list_elem_of_lookup_2.
  - constructor; [|constructor]. by rewrite snapshot_update.
Qed.

Lemma strings_reach_nothing n h a tas (addrs : list string) l :
  list_at n h a tas → mapM str_of_tree tas = Some addrs →
  reachable h (VRef a) l → l = a.
Proof.
  intros (items & Ha & Hitems) Hstr. apply (reachable_leaf _ _ _ _ Ha). simpl.
  apply mapM_Some in Hstr. apply Forall_forall. intros v Hv y ->.
  apply list_elem_of_lookup in Hv as [i Hi].
  destruct (Forall2_lookup_l _ _ _ _ _ Hitems Hi) as (t & Ht & Hsnap).
  destruct (Forall2_lookup_l _ _ _ _ _ Hstr Ht) as (s & _ & Hs).
  destruct t; try done. by apply snapshot_TStr in Hsnap.
Qed.

Lemma Partition_at σ x (P : Partition.t) :
  read_Node σ x = Some (NPartition P) ↔
  cells σ !! x
  = Some (Obj (KInst CPartition)
            [VInt P.(Partition.index); VInt P.(Partition.gib); VStr P.(Partition.role)]).
Proof.
  rewrite read_Node_exact. cbn [class_depth]. split.
  - intros (t & Ht & ->%Node_of_tree_Partition%Partition_of_tree_inv).
    apply snapshot_TObj in Ht as (n' & l & vs & [= <-] & [= <-] & Hx & Hvs).
    apply Forall2_cons_inv_r in Hvs as (v0 & vs0 & ->%snapshot_TInt & Hvs & ->).
    apply Forall2_cons_inv_r in Hvs as (v1 & vs1 & ->%snapshot_TInt & Hvs & ->).
    by apply Forall2_cons_inv_r
      in Hvs as (v2 & vs2 & ->%snapshot_TStr & ->%Forall2_nil_inv_r & ->).
  - intros Hx. eexists. split.
    + eapply (snapshot_obj 0 _ x (Obj _ _)); [done |]. by repeat constructor.
    + by destruct P.
Qed.

Lemma Hardware_at σ x (c : Hardware.t) :
  read_Node σ x = Some (Hardware_node c) →
  ∃ t, snapshot 3 (cells σ) (VRef x) = Some t ∧ Hardware_of_tree t = Some c.
Proof.
  intros (t & Ht & Hn)%read_Node_snapshot. exists t.
  assert (Hardware_of_tree t = Some c) as Hc.
  { unfold Node_of_tree in Hn. unfold Hardware_of_tree.
    destruct c; repeat case_match; try done;
      apply fmap_Some in Hn as (x' & Hx' & [=]); subst; by rewrite Hx'. }
  split; [|done]. eapply snapshot_fuel; [done |]. by eapply Hardware_of_tree_depth.
Qed.
End Appending.

Section Witnessing.
Lemma not_reachable_footprint n (h : gmap loc obj) v t l :
  snapshot n h v = Some t → l ∉ footprint n h v → ¬ reachable h v l.
Proof. intros Ht Hl Hreach. apply Hl. by eapply reachable_footprint. Qed.
End Witnessing.

(** X6. [add_host]: when the list of hosts of the network is not part
    of the host added, the network reads afterwards as before with the
    host added last; only the list object changes, and no object is
    created. *)
Theorem add_host_appends (σ : store) (net h hl : loc) (N : Network.t) (H : Host.t) :
  read_Node σ net = Some (NNetwork N) →
  read_Node σ h = Some (NHost H) →
  get_attr σ net "hosts" = Some (VRef hl) →
  ¬ reachable (cells σ) (VRef h) hl →
  ∃ σ', add_host net h σ = Some σ'
        ∧ read_Node σ' net = Some (NNetwork (Network_add_host N H))
        ∧ next σ' = next σ
        ∧ (∀ l, l ≠ hl → cells σ' !! l = cells σ !! l).
Proof.
  intros (hl' & ths & Hx & Hl & Hhs)%Network_at Hh Hget Hnr.
  assert (hl' = hl) as ->.
  { unfold get_attr in Hget. rewrite Hx in Hget. by injection Hget. }
  apply read_Node_exact in Hh as (th & Hth & Hhost%Node_of_tree_Host).
  destruct (list_at_append 5 σ hl ths (VRef h) th Hl Hth Hnr)
    as (σ' & Happ & Hnext & Hframe & Hl').
  exists σ'. split; [|split; [|done]].
  - unfold add_host, attr_append. rewrite Hget. done.
  - apply Network_at. exists hl, (ths ++ [th]). split; [|split; [done |]].
    + rewrite Hframe; [done |]. intros ->. destruct Hl as (? & ? & _). congruence.
    + by apply mapM_snoc.
Qed.

Lemma add_host_appends_witness :
  ∃ σ', add_host sample_net more_host more_store = Some σ'
        ∧ read_Node σ' sample_net
          = Some (NNetwork (Network_add_host sample_Network
                              (Host.mk "server3.misis.ru" [] [])))
        ∧ next σ' = next more_store
        ∧ (∀ l, l ≠ 0 → cells σ' !! l = cells more_store !! l).
Proof.
  apply (add_host_appends more_store sample_net more_host 0).
  - by vm_compute.
  - by vm_compute.
  - by vm_compute.
  - eapply (not_reachable_footprint 7); [by vm_compute |].
    apply (bool_decide_unpack _). by vm_compute.
Defined.

(** X7. [add_part]: the disk reads afterwards as before with the
    partition added last; only the list of partitions changes. *)
Theorem add_part_appends (σ : store) (d p : loc) (D : Disk.t) (P : Partition.t) :
  read_Node σ d = Some (NDisk D) →
  read_Node σ p = Some (NPartition P) →
  ∃ σ' pl, add_part d p σ = Some σ'
           ∧ get_attr σ d "parts" = Some (VRef pl)
           ∧ read_Node σ' d = Some (NDisk (Disk_add_part D P))
           ∧ next σ' = next σ
           ∧ (∀ l, l ≠ pl → cells σ' !! l = cells σ !! l).
Proof.
  intros (pl & tps & Hx & Hl & Hps)%Disk_at Hp.
  assert (get_attr σ d "parts" = Some (VRef pl)) as Hget.
  { unfold get_attr. by rewrite Hx. }
  pose proof Hp as Hcell%Partition_at.
  apply read_Node_exact in Hp as (tp & Htp & Hpart%Node_of_tree_Partition).
  destruct (list_at_append 1 σ pl tps (VRef p) tp Hl Htp) as (σ' & Happ & Hnext & Hframe & Hl').
  { intros ->%(reachable_leaf _ _ _ _ Hcell); [|by repeat constructor].
    destruct Hl as (? & ? & _). congruence. }
  exists σ', pl. split; [|split; [done |split; [|done]]].
  - unfold add_part, attr_append. rewrite Hget. done.
  - apply Disk_at. exists pl, (tps ++ [tp]). split; [|split; [done |]].
    + rewrite Hframe; [done |]. intros ->. destruct Hl as (? & ? & _). congruence.
    + by apply mapM_snoc.
Qed.

Lemma add_part_appends_witness :
  ∃ σ' pl, add_part more_disk more_part more_store = Some σ'
           ∧ get_attr more_store more_disk "parts" = Some (VRef pl)
           ∧ read_Node σ' more_disk
             = Some (NDisk (Disk_add_part (Disk.mk 500 []) (Partition.mk 0 500 "swap")))
           ∧ next σ' = next more_store
           ∧ (∀ l, l ≠ pl → cells σ' !! l = cells more_store !! l).
Proof.
  apply (add_part_appends more_store more_disk more_part); by vm_compute.
Defined.

(** X8. [add_hw]: when the list of hardware of the host is not part of
    the component added and is not also its list of addresses, the host
    reads afterwards as before with the component added last. *)
Theorem add_hw_appends (σ : store) (h c al hwl : loc) (H : Host.t) (C : Hardware.t) :
  read_Node σ h = Some (NHost H) →
  read_Node σ c = Some (Hardware_node C) →
  get_attr σ h "addrs" = Some (VRef al) →
  get_attr σ h "hw" = Some (VRef hwl) →
  al ≠ hwl →
  ¬ reachable (cells σ) (VRef c) hwl →
  ∃ σ', add_hw h c σ = Some σ'
        ∧ read_Node σ' h = Some (NHost (Host_add_hw H C))
        ∧ next σ' = next σ
        ∧ (∀ l, l ≠ hwl → cells σ' !! l = cells σ !! l).
Proof.
  intros (al' & hwl' & tas & ths & Hx & Hal & Has & Hhwl & Hhw)%Host_at Hc Ha Hw Hne Hnr.
  assert (al' = al) as ->.
  { unfold get_attr in Ha. rewrite Hx in Ha. by injection Ha. }
  assert (hwl' = hwl) as ->.
  { unfold get_attr in Hw. rewrite Hx in Hw. by injection Hw. }
  apply Hardware_at in Hc as (tc & Htc & Hcomp).
  destruct (list_at_append 3 σ hwl ths (VRef c) tc Hhwl Htc Hnr)
    as (σ' & Happ & Hnext & Hframe & Hl').
  exists σ'. split; [|split; [|done]].
  - unfold add_hw, attr_append. rewrite Hw. done.
  - apply Host_at. exists al, hwl, tas, (ths ++ [tc]).
    split; [|split; [|split; [done |split; [done |]]]].
    + rewrite Hframe; [done |]. intros ->. destruct Hhwl as (? & ? & _). congruence.
    + eapply list_at_frame_except; [done | | done].
      by intros ->%(strings_reach_nothing _ _ _ _ _ _ Hal Has).
    + by apply mapM_snoc.
Qed.

Lemma add_hw_appends_witness :
  ∃ σ', add_hw more_host more_disk more_store = Some σ'
        ∧ read_Node σ' more_host
          = Some (NHost (Host_add_hw (Host.mk "server3.misis.ru" [] [])
                           (Hardware.OfDisk (Disk.mk 500 []))))
        ∧ next σ' = next more_store
        ∧ (∀ l, l ≠ 16 → cells σ' !! l = cells more_store !! l).
Proof.
  apply (add_hw_appends more_store more_host more_disk 15 16
           (Host.mk "server3.misis.ru" [] []) (Hardware.OfDisk (Disk.mk 500 []))).
  - by vm_compute.
  - by vm_compute.
  - by vm_compute.
  - by vm_compute.
  - done.
  - eapply (not_reachable_footprint 7); [by vm_compute |].
    apply (bool_decide_unpack _). by vm_compute.
Defined.

(** X9. [add_addr]: when the list of addresses of the host is not part
    of its hardware, the host reads afterwards as before with the address
    added last. *)
Theorem add_addr_appends (σ : store) (h al hwl : loc) (H : Host.t) (ip : string) :
  read_Node σ h = Some (NHost H) →
  get_attr σ h "addrs" = Some (VRef al) →
  get_attr σ h "hw" = Some (VRef hwl) →
  ¬ reachable (cells σ) (VRef hwl) al →
  ∃ σ', add_addr h ip σ = Some σ'
        ∧ read_Node σ' h = Some (NHost (Host_add_addr H ip))
        ∧ next σ' = next σ
        ∧ (∀ l, l ≠ al → cells σ' !! l = cells σ !! l).
Proof.
  intros (al' & hwl' & tas & ths & Hx & Hal & Has & Hhwl & Hhw)%Host_at Ha Hw Hnr.
  assert (al' = al) as ->.
  { unfold get_attr in Ha. rewrite Hx in Ha. by injection Ha. }
  assert (hwl' = hwl) as ->.
  { unfold get_attr in Hw. rewrite Hx in Hw. by injection Hw. }
  destruct (list_at_append 3 σ al tas (VStr ip) (TStr ip) Hal eq_refl)
    as (σ' & Happ & Hnext & Hframe & Hl').
  { by apply reachable_atomic. }
  exists σ'. split; [|split; [|done]].
  - unfold add_addr, attr_append. rewrite Ha. done.
  - apply Host_at. exists al, hwl, (tas ++ [TStr ip]), ths.
    split; [|split; [done |split; [|split; [|done]]]].
    + rewrite Hframe; [done |]. intros ->. destruct Hal as (? & ? & _). congruence.
    + by apply mapM_snoc.
    + by eapply list_at_frame_except.
Qed.

Lemma add_addr_appends_witness :
  ∃ σ', add_addr more_host "10.0.0.3" more_store = Some σ'
        ∧ read_Node σ' more_host
          = Some (NHost (Host_add_addr (Host.mk "server3.misis.ru" [] []) "10.0.0.3"))
        ∧ next σ' = next more_store
        ∧ (∀ l, l ≠ 15 → cells σ' !! l = cells more_store !! l).
Proof.
  apply (add_addr_appends more_store more_host 15 16
           (Host.mk "server3.misis.ru" [] [])).
  - by vm_compute.
  - by vm_compute.
  - by vm_compute.
  - eapply (not_reachable_footprint 7); [by vm_compute |].
    apply (bool_decide_unpack _). by vm_compute.
Defined.

Section Searching.
Implicit Types (σ : store) (l : loc).

Lemma Host_item σ v th (H : Host.t) :
  snapshot 5 (cells σ) v = Some th → Host_of_tree th = Some H →
  ∃ l, v = VRef l ∧ read_Node σ l = Some (NHost H)
       ∧ get_attr σ l "name" = Some (VStr H.(Host.name)).
Proof.
  intros Hv Hth. pose proof Hth as (tas & ths & -> & _)%Host_of_tree_inv.
  pose proof Hv as (n' & l & vs & _ & -> & _)%snapshot_TObj.
  assert (read_Node σ l = Some (NHost H)) as Hread.
  { apply read_Node_exact. eexists. split; [exact Hv |]. by apply Node_of_tree_Host. }
  exists l. split; [done |]. split; [done |].
  apply Host_at in Hread as (al & hwl & ? & ? & Hl & _).
  unfold get_attr. by rewrite Hl.
Qed.

Lemma find_host_in_spec σ items ths hosts q :
  Forall2 (λ v t, snapshot 5 (cells σ) v = Some t) items ths →
  mapM Host_of_tree ths = Some hosts →
  match Network.find_host_loop hosts q with
  | Some H =>
      ∃ l i, find_host_in σ items q = Some (Some l)
             ∧ items !! i = Some (VRef l)
             ∧ read_Node σ l = Some (NHost H)
  | None => find_host_in σ items q = Some None
  end.
Proof.
  intros Hitems Hhosts%mapM_Some. revert hosts Hhosts.
  induction Hitems as [|v th items ths Hv _ IH]; intros hosts Hhosts.
  { by apply Forall2_nil_inv_l in Hhosts as ->. }
  apply Forall2_cons_inv_l in Hhosts as (H & hosts' & Hth & Hhosts & ->).
  destruct (Host_item _ _ _ _ Hv Hth) as (l & -> & Hread & Hname).
  cbn [Network.find_host_loop find_host_in]. rewrite Hname. cbn [mbind option_bind val_eq_str].
  destruct (String.eqb (Host.name H) q).
  - by exists l, 0.
  - specialize (IH hosts' Hhosts).
    destruct (Network.find_host_loop hosts' q) as [H'|]; [|done].
    destruct IH as (l' & i & ? & ? & ?). by exists l', (S i).
Qed.
End Searching.

(** X10. [find_host] on the objects agrees with [find_host] on the
    values: when no host has the name it returns [None]; otherwise it
    returns, without copying it, one of the objects in the network's own
    list of hosts, and that object reads as the host found. *)
Theorem find_host_at_refines (σ : store) (net : loc) (N : Network.t) (q : string) :
  read_Node σ net = Some (NNetwork N) →
  match Network.find_host N q with
  | Some H =>
      ∃ l hl i, find_host_at σ net q = Some (Some l)
                ∧ get_attr σ net "hosts" = Some (VRef hl)
                ∧ get_item σ hl i = Some (VRef l)
                ∧ read_Node σ l = Some (NHost H)
  | None => find_host_at σ net q = Some None
  end.
Proof.
  intros (hl & ths & Hx & (items & Hl & Hitems) & Hhs)%Network_at.
  assert (get_attr σ net "hosts" = Some (VRef hl)) as Hget.
  { unfold get_attr. by rewrite Hx. }
  assert (find_host_at σ net q = find_host_in σ items q) as ->.
  { unfold find_host_at, list_items. rewrite Hget. simpl. by rewrite Hl. }
  pose proof (find_host_in_spec σ items ths _ q Hitems Hhs) as Hspec.
  unfold Network.find_host.
  destruct (Network.find_host_loop (Network.hosts N) q) as [H|]; [|done].
  destruct Hspec as (l & i & Hfind & Hi & Hread).
  exists l, hl, i. split; [done |]. split; [done |]. split; [|done].
  unfold get_item. by rewrite Hl.
Qed.

Lemma find_host_at_refines_witness :
  ∃ l hl i, find_host_at sample_store sample_net "server2.misis.ru" = Some (Some l)
            ∧ get_attr sample_store sample_net "hosts" = Some (VRef hl)
            ∧ get_item sample_store hl i = Some (VRef l)
            ∧ read_Node sample_store l
              = Some (NHost (Host.mk "server2.misis.ru" ["10.0.0.1"]
                   [Hardware.OfCpu (Cpu.mk 8 3200);
                    Hardware.OfDisk (Disk.mk 2000
                      [Partition.mk 0 500 "system"; Partition.mk 1 1500 "data"])])).
Proof.
  apply (find_host_at_refines sample_store sample_net sample_Network "server2.misis.ru").
  by vm_compute.
Defined.

(** X11. [clone] works on a node of any class, and needs no more
    recursion than the class is deep: the copy is a new object that reads
    as the same node and draws as the same text; the original and every
    other object of the store are left as they were, and the two trees
    have no object in common. *)
Theorem clone_any_node (σ : store) (x : loc) (n : Node) (fuel : nat) :
  store_wf σ → read_Node σ x = Some n → class_depth n ≤ fuel →
  ∃ x' σ',
    clone fuel σ x = Some (x', σ')
    ∧ read_Node σ' x' = Some n
    ∧ read_Node σ' x = Some n
    ∧ draw_at σ' x' = draw_at σ x
    ∧ cells σ !! x' = None
    ∧ cells σ ⊆ cells σ'
    ∧ store_wf σ'
    ∧ (∀ l, reachable (cells σ') (VRef x) l → ¬ reachable (cells σ') (VRef x') l).
Proof.
  intros Hwf Hread Hfuel. pose proof Hread as (t & Ht & Hn)%read_Node_exact.
  pose proof (Node_of_tree_depth _ _ Hn) as Hd.
  assert (depth t ≤ tree_depth) as Hd7.
  { destruct n; simpl in *; unfold tree_depth; lia. }
  apply (snapshot_fuel _ fuel) in Ht; [|lia].
  destruct (clone_spec fuel σ x t Hwf Ht)
    as (x' & σ' & Hclone & Hsub & Hwf' & Hsnap & Hnew & Hold).
  assert (read_Node σ' x' = Some n) as Hread'.
  { apply read_Node_snapshot. exists t. split; [|done]. by eapply snapshot_fuel. }
  exists x', σ'. split; [done |]. split; [done |]. split; [|split; [|split]].
  - apply read_Node_snapshot. exists t. split; [|done].
    eapply snapshot_fuel; [|done]. by eapply snapshot_weaken.
  - unfold draw_at. by rewrite Hread, Hread'.
  - apply store_wf_fresh; [done |]. apply Hnew. constructor.
  - split; [done |]. split; [done |].
    intros l Hl Hl'. apply Hold in Hl. apply Hnew in Hl'. lia.
Qed.

Lemma clone_any_node_witness :
  ∃ x' σ',
    clone 3 more_store more_disk = Some (x', σ')
    ∧ read_Node σ' x' = Some (NDisk (Disk.mk 500 []))
    ∧ read_Node σ' more_disk = Some (NDisk (Disk.mk 500 []))
    ∧ draw_at σ' x' = draw_at more_store more_disk
    ∧ cells more_store !! x' = None
    ∧ cells more_store ⊆ cells σ'
    ∧ store_wf σ'
    ∧ (∀ l, reachable (cells σ') (VRef more_disk) l
            → ¬ reachable (cells σ') (VRef x') l).
Proof.
  apply (clone_any_node more_store more_disk (NDisk (Disk.mk 500 [])) 3).
  - unfold store_wf. apply (bool_decide_unpack _). by vm_compute.
  - by vm_compute.
  - simpl. lia.
Defined.

Section Renaming.
Implicit Types (σ : store) (l : loc).

(** The first host of a network that has one: its object, which is
    reachable from the network, and its name. *)
Lemma first_host_spec σ r title (H : Host.t) rest :
  read_Node σ r = Some (NNetwork (Network.mk title (H :: rest))) →
  ∃ hl h al hwl,
    cells σ !! r = Some (Obj (KInst CNetwork) [VStr title; VRef hl])
    ∧ (∃ items, cells σ !! hl = Some (Obj KList (VRef h :: items)))
    ∧ cells σ !! h = Some (Obj (KInst CHost) [VStr H.(Host.name); VRef al; VRef hwl])
    ∧ first_host σ r = Some h.
Proof.
  intros (hl & ths & Hr & (items & Hl & Hitems) & Hhs)%Network_at.
  cbn [Network.title Network.hosts] in *.
  apply mapM_Some in Hhs.
  apply Forall2_cons_inv_r in Hhs as (th & ths' & Hth & _ & ->).
  apply Forall2_cons_inv_r in Hitems as (v & items' & Hv & _ & ->).
  destruct (Host_item _ _ _ _ Hv Hth) as (h & -> & Hread & _).
  apply Host_at in Hread as (al & hwl & _ & _ & Hh & _).
  exists hl, h, al, hwl. split; [done |]. split; [by exists items' |]. split; [done |].
  unfold first_host, get_attr, get_item. rewrite Hr. simpl. by rewrite Hl.
Qed.

Lemma first_host_frame σ σ' r hl h items title :
  cells σ !! r = Some (Obj (KInst CNetwork) [VStr title; VRef hl]) →
  cells σ !! hl = Some (Obj KList (VRef h :: items)) →
  cells σ' !! r = cells σ !! r → cells σ' !! hl = cells σ !! hl →
  first_host σ' r = Some h.
Proof.
  intros Hr Hl Hr' Hl'. unfold first_host, get_attr, get_item.
  rewrite Hr', Hr. simpl. by rewrite Hl', Hl.
Qed.
End Renaming.

(** X12. The end of the script, for any network with at least one host
    and any new name: after [copy = net.clone()] and
    [copy.hosts[0].name = s], the first host of the copy has the name
    [s], the first host of the original is another object and keeps its
    name, and the original network reads as before. *)
Theorem clone_then_rename (σ : store) (r : loc) (title : string) (H : Host.t)
    (rest : list Host.t) (s : string) (fuel : nat) :
  store_wf σ →
  read_Network σ r = Some (Network.mk title (H :: rest)) →
  tree_depth ≤ fuel →
  ∃ r' σ' h h' σ'',
    clone fuel σ r = Some (r', σ')
    ∧ first_host σ' r = Some h
    ∧ first_host σ' r' = Some h'
    ∧ h ≠ h'
    ∧ set_attr σ' h' "name" (VStr s) = Some σ''
    ∧ first_host σ'' r = Some h
    ∧ first_host σ'' r' = Some h'
    ∧ get_attr σ'' h "name" = Some (VStr H.(Host.name))
    ∧ get_attr σ'' h' "name" = Some (VStr s)
    ∧ read_Network σ'' r = Some (Network.mk title (H :: rest)).
Proof.
  intros Hwf HN Hfuel. pose proof HN as (t & Ht & Ht')%read_Network_snapshot.
  pose proof (snapshot_depth _ _ _ _ Ht) as Hd.
  apply (snapshot_fuel _ fuel) in Ht; [|lia].
  destruct (clone_separate fuel σ r t Hwf Ht)
    as (r' & σ' & Hclone & Hr & Hr' & Hdisj & Hkeep & _).
  assert (read_Node σ' r = Some (NNetwork (Network.mk title (H :: rest)))) as Hnode.
  { apply read_Node_snapshot. exists t. split; [by eapply snapshot_fuel |].
    by apply Node_of_tree_Network. }
  assert (read_Node σ' r' = Some (NNetwork (Network.mk title (H :: rest)))) as Hnode'.
  { apply read_Node_snapshot. exists t. split; [by eapply snapshot_fuel |].
    by apply Node_of_tree_Network. }
  destruct (first_host_spec _ _ _ _ _ Hnode)
    as (hl & h & al & hwl & Hcr & (items & Hcl) & Hch & Hfirst).
  destruct (first_host_spec _ _ _ _ _ Hnode')
    as (hl' & h' & al' & hwl' & Hcr' & (items' & Hcl') & Hch' & Hfirst').
  assert (reachable (cells σ') (VRef r) hl) as Hreach_hl.
  { eapply reach_step; [exact Hcr | | constructor]. simpl. set_solver. }
  assert (reachable (cells σ') (VRef r) h) as Hreach_h.
  { eapply reach_step; [exact Hcr | |].
    - simpl. apply list_elem_of_further, list_elem_of_here.
    - eapply reach_step; [exact Hcl | apply list_elem_of_here | constructor]. }
  assert (reachable (cells σ') (VRef r') h') as Hreach_h'.
  { eapply reach_step; [exact Hcr' | |].
    - simpl. apply list_elem_of_further, list_elem_of_here.
    - eapply reach_step; [exact Hcl' | apply list_elem_of_here | constructor]. }
  assert (h ≠ h') as Hne.
  { intros Heq. apply (Hdisj h'); [by rewrite <- Heq | done]. }
  assert (r ≠ h') as Hne_r.
  { intros Heq. apply (Hdisj h'); [rewrite <- Heq; constructor | done]. }
  assert (hl ≠ h') as Hne_hl.
  { intros Heq. apply (Hdisj h'); [by rewrite <- Heq | done]. }
  assert (r' ≠ h') as Hne_r' by (intros ->; congruence).
  assert (hl' ≠ h') as Hne_hl' by (intros ->; congruence).
  set (σ'' := Store (<[h':=Obj (KInst CHost) [VStr s; VRef al'; VRef hwl']]> (cells σ'))
                    (next σ')).
  assert (set_attr σ' h' "name" (VStr s) = Some σ'') as Hset.
  { unfold set_attr. by rewrite Hch'. }
  assert (∀ l, l ≠ h' → cells σ'' !! l = cells σ' !! l) as Hframe.
  { intros l Hl. by eapply set_attr_frame. }
  exists r', σ', h, h', σ''.
  split; [done |]. split; [done |]. split; [done |]. split; [done |]. split; [done |].
  split; [|split; [|split; [|split]]].
  - eapply first_host_frame; [exact Hcr | exact Hcl | by apply Hframe..].
  - eapply first_host_frame; [exact Hcr' | exact Hcl' | by apply Hframe..].
  - unfold get_attr. rewrite Hframe by done. by rewrite Hch.
  - unfold get_attr. simpl. by rewrite lookup_insert_eq.
  - apply read_Network_snapshot. exists t. split; [|done].
    eapply snapshot_fuel; [|done]. apply Hkeep. intros l _ Hl.
    apply Hframe. by intros ->.
Qed.

Lemma clone_then_rename_witness :
  ∃ r' σ' h h' σ'',
    clone 7 sample_store sample_net = Some (r', σ')
    ∧ first_host σ' sample_net = Some h
    ∧ first_host σ' r' = Some h'
    ∧ h ≠ h'
    ∧ set_attr σ' h' "name" (VStr "edited") = Some σ''
    ∧ first_host σ'' sample_net = Some h
    ∧ first_host σ'' r' = Some h'
    ∧ get_attr σ'' h "name" = Some (VStr "server1.misis.ru")
    ∧ get_attr σ'' h' "name" = Some (VStr "edited")
    ∧ read_Network σ'' sample_net = Some sample_Network.
Proof.
  apply (clone_then_rename sample_store sample_net "MISIS network"
           (Host.mk "server1.misis.ru" ["192.168.1.1"]
              [Hardware.OfCpu (Cpu.mk 4 2500); Hardware.OfMemory (Memory.mk 16000)])
           [Host.mk "server2.misis.ru" ["10.0.0.1"]
              [Hardware.OfCpu (Cpu.mk 8 3200);
               Hardware.OfDisk (Disk.mk 2000
                 [Partition.mk 0 500 "system"; Partition.mk 1 1500 "data"])]]
           "edited" 7).
  - exact sample_store_wf.
  - exact sample_store_read.
  - unfold tree_depth. lia.
Defined.

Section Sharing.
Implicit Types (s : copying) (v : val) (m : gmap loc loc).

Lemma copy_of_weaken m m' v v' : m ⊆ m' → copy_of m v v' → copy_of m' v v'.
Proof.
  intros Hm. destruct v as [z|str|x]; try done.
  intros (y & Hy & ->). exists y. split; [|done]. by eapply lookup_weaken.
Qed.

Lemma memo_step_refl s : memo_step s s.
Proof.
  split; [done |]. split; [done |]. split; [done |]. intros x y H1 H2. congruence.
Qed.

Lemma memo_step_trans s1 s2 s3 :
  memo_inv s2 → memo_step s1 s2 → memo_step s2 s3 → memo_step s1 s3.
Proof.
  intros (_ & Hrange & _) (Hm12 & Hn12 & Hf12 & Hw12) (Hm23 & Hn23 & Hf23 & Hw23).
  split; [by etrans |]. split; [lia |]. split.
  - intros l Hl. rewrite Hf23 by lia. by apply Hf12.
  - intros x y Hy Hnone. destruct (memo s2 !! x) as [y'|] eqn:Hy'.
    + assert (y' = y) as -> by (eapply lookup_weaken in Hy'; [|done]; congruence).
      rewrite Hf23; [by eapply Hw12 |]. by apply Hrange in Hy' as [? _].
    + by eapply Hw23.
Qed.

(** The statement proved of [deepcopy n] about [memo]. *)
Lemma copy_each_memo n vs s vs' s' :
  (∀ v s v' s', deepcopy n v s = Some (v', s') → memo_inv s →
                memo_inv s' ∧ memo_step s s' ∧ copy_of (memo s') v v') →
  copy_each (deepcopy n) vs s = Some (vs', s') → memo_inv s →
  memo_inv s' ∧ memo_step s s' ∧ Forall2 (copy_of (memo s')) vs vs'.
Proof.
  intros IH. revert s vs' s'. induction vs as [|v vs IHvs]; intros s vs' s' Hcopy Hinv.
  { injection Hcopy as <- <-. split; [done |]. split; [apply memo_step_refl | constructor]. }
  cbn [copy_each] in Hcopy.
  destruct (deepcopy n v s) as [[v1 s1]|] eqn:Hv; [|done]. cbn in Hcopy.
  destruct (copy_each (deepcopy n) vs s1) as [[vs2 s2]|] eqn:Hvs; [|done]. cbn in Hcopy.
  injection Hcopy as <- <-.
  destruct (IH _ _ _ _ Hv Hinv) as (Hinv1 & Hstep1 & Hv1).
  destruct (IHvs _ _ _ Hvs Hinv1) as (Hinv2 & Hstep2 & Hvs2).
  split; [done |]. split; [by apply (memo_step_trans _ s1) |].
  constructor; [|done]. eapply copy_of_weaken; [|done]. apply Hstep2.
Qed.

Lemma deepcopy_memo n v s v' s' :
  deepcopy n v s = Some (v', s') → memo_inv s →
  memo_inv s' ∧ memo_step s s' ∧ copy_of (memo s') v v'.
Proof.
  revert v s v' s'. induction n as [|n IH]; intros v s v' s' Hcopy Hinv.
  { destruct v as [z|str|x]; cbn [deepcopy] in Hcopy.
    - injection Hcopy as <- <-. split; [done |]. split; [apply memo_step_refl | done].
    - injection Hcopy as <- <-. split; [done |]. split; [apply memo_step_refl | done].
    - destruct (memo s !! x) as [y|] eqn:Hy; [|done]. injection Hcopy as <- <-.
      split; [done |]. split; [apply memo_step_refl |]. by exists y. }
  destruct v as [z|str|x]; cbn [deepcopy] in Hcopy.
  { injection Hcopy as <- <-. split; [done |]. split; [apply memo_step_refl | done]. }
  { injection Hcopy as <- <-. split; [done |]. split; [apply memo_step_refl | done]. }
  destruct (memo s !! x) as [y0|] eqn:Hy.
  { injection Hcopy as <- <-. split; [done |]. split; [apply memo_step_refl |].
    by exists y0. }
  destruct (cells (heap s) !! x) as [o|] eqn:Hx; [|done]. cbn [mbind option_bind] in Hcopy.
  set (y := next (heap s)) in *.
  set (s1 := Copying (Store (cells (heap s)) (S y)) (<[x:=y]> (memo s))) in *.
  destruct (copy_each (deepcopy n) (slots o) s1) as [[vs' s2]|] eqn:Hvs; [|done].
  cbn in Hcopy. injection Hcopy as <- <-.
  destruct Hinv as (Hwf & Hrange & Hinj & Hrel).
  assert (x < y) as Hxy by (by eapply store_wf_lookup).
  assert (cells (heap s) !! y = None) as Hynone by (by apply store_wf_fresh).
  assert (memo_inv s1) as Hinv1.
  { split; [|split; [|split]].
    - eapply map_Forall_impl; [exact Hwf |]. simpl. intros; subst y; lia.
    - intros x' y'. cbn [s1 memo heap next cells].
      destruct (decide (x = x')) as [<-|Hne].
      + rewrite lookup_insert_eq. intros [= <-]. split; [lia | by eexists].
      + rewrite lookup_insert_ne by done. intros [? ?]%Hrange. split; [subst y; lia | done].
    - intros x1 x2 y'. cbn [s1 memo].
      destruct (decide (x = x1)) as [<-|Hne1], (decide (x = x2)) as [<-|Hne2];
        rewrite ?lookup_insert_eq, ?lookup_insert_ne by done; try done.
      + intros [= <-] [? _]%Hrange. subst y; lia.
      + intros [? _]%Hrange [= <-]. subst y; lia.
      + apply Hinj.
    - intros x' y' o'. cbn [s1 memo heap cells].
      destruct (decide (x = x')) as [<-|Hne].
      + rewrite lookup_insert_eq. intros [= <-]. by rewrite Hynone.
      + rewrite lookup_insert_ne by done. intros Hy' Ho'.
        destruct (Hrel _ _ _ Hy' Ho') as (o0 & Ho0 & Hk & Hslots).
        exists o0. split; [done |]. split; [done |].
        eapply Forall2_impl; [exact Hslots |]. intros v1 v2.
        apply copy_of_weaken. by apply insert_subseteq. }
  destruct (copy_each_memo n _ _ _ _ IH Hvs Hinv1) as (Hinv2 & Hstep2 & Hslots).
  destruct Hinv2 as (Hwf2 & Hrange2 & Hinj2 & Hrel2).
  destruct Hstep2 as (Hm2 & Hn2 & Hf2 & Hw2).
  unfold s1 in Hm2, Hn2, Hf2, Hw2. cbn [memo heap next cells] in Hm2, Hn2, Hf2, Hw2.
  assert (memo s2 !! x = Some y) as Hxy2.
  { eapply lookup_weaken; [|exact Hm2]. apply lookup_insert_eq. }
  assert (cells (heap s2) !! y = None) as Hynone2 by (rewrite Hf2 by lia; done).
  assert (cells (heap s2) !! x = Some o) as Hx2 by (rewrite Hf2 by lia; done).
  split; [|split].
  - split; [|split; [|split]]; cbn [heap memo cells next].
    + apply map_Forall_insert_2; [simpl; lia | done].
    + intros x' y' Hy'. destruct (Hrange2 _ _ Hy') as [? [o' Ho']]. split; [done |].
      destruct (decide (y = x')) as [<-|Hne]; [congruence |].
      rewrite lookup_insert_ne by done. by eexists.
    + exact Hinj2.
    + intros x' y' o' Hy'. destruct (decide (y = y')) as [<-|Hne].
      * rewrite lookup_insert_eq. intros [= <-].
        assert (x' = x) as -> by (by eapply Hinj2).
        exists o. split; [|done]. rewrite lookup_insert_ne by lia. done.
      * rewrite lookup_insert_ne by done. intros Ho'.
        destruct (Hrel2 _ _ _ Hy' Ho') as (o0 & Ho0 & Hk & Hs0).
        exists o0. split; [|done].
        rewrite lookup_insert_ne; [done |]. intros <-. congruence.
  - split; [|split; [|split]]; cbn [heap memo cells next].
    + etrans; [|exact Hm2]. by apply insert_subseteq.
    + subst y. lia.
    + intros l Hl. rewrite lookup_insert_ne by (subst y; lia). apply Hf2. subst y. lia.
    + intros x' y' Hy' Hnone'. destruct (decide (y = y')) as [<-|Hne].
      * rewrite lookup_insert_eq. by eexists.
      * rewrite lookup_insert_ne by done. apply (Hw2 x' y' Hy').
        rewrite lookup_insert_ne; [done |]. intros <-. congruence.
  - by exists y.
Qed.

Lemma resolve_weaken (h h' : gmap loc obj) v path w :
  h ⊆ h' → resolve h v path = Some w → resolve h' v path = Some w.
Proof.
  intros Hsub. revert v. induction path as [|i path IH]; intros v H; [done |].
  destruct v as [z|str|l]; try done. cbn [resolve] in *.
  destruct (h !! l) as [o|] eqn:Hl; [|done]. cbn in H.
  rewrite (lookup_weaken _ _ _ _ Hl Hsub). cbn.
  destruct (slots o !! i) as [u|]; [|done]. cbn in *. by apply IH.
Qed.

(** Along every path, the copy holds the copy of what the original
    holds. *)
Lemma resolve_copy (h : gmap loc obj) m path v v' w :
  (∀ x y, m !! x = Some y →
          ∃ o o', h !! x = Some o ∧ h !! y = Some o'
                  ∧ Forall2 (copy_of m) (slots o) (slots o')) →
  copy_of m v v' → resolve h v path = Some w →
  ∃ w', resolve h v' path = Some w' ∧ copy_of m w w'.
Proof.
  intros Hm. revert v v'. induction path as [|i path IH]; intros v v' Hv H.
  { injection H as <-. by exists v'. }
  destruct v as [z|str|l]; try done. destruct Hv as (y & Hy & ->).
  cbn [resolve] in *. destruct (Hm _ _ Hy) as (o & o' & Ho & Ho' & Hslots).
  rewrite Ho in H. cbn in H. rewrite Ho'. cbn.
  destruct (slots o !! i) as [u|] eqn:Hu; [|done]. cbn in H.
  destruct (Forall2_lookup_l _ _ _ _ _ Hslots Hu) as (u' & Hu' & Huu).
  rewrite Hu'. cbn. by eapply IH.
Qed.
End Sharing.

Section CloneMemo.
Lemma clone_deepcopy fuel (σ σ' : store) (r r' : loc) :
  clone fuel σ r = Some (r', σ') →
  ∃ s', deepcopy fuel (VRef r) (Copying σ ∅) = Some (VRef r', s') ∧ heap s' = σ'.
Proof.
  unfold clone. destruct (deepcopy fuel (VRef r) (Copying σ ∅)) as [[v s']|]; [|done].
  cbn. destruct v as [z|str|l]; try done. intros [= <- <-]. by exists s'.
Qed.

Lemma memo_inv_start (σ : store) : store_wf σ → memo_inv (Copying σ ∅).
Proof.
  intros Hwf. split; [done |]. cbn [memo].
  split; [|split]; intros *; by rewrite lookup_empty.
Qed.
End CloneMemo.

(** X13. [clone] keeps the sharing of objects as it is: every path of
    attributes and items that leads somewhere in the original leads
    somewhere in the copy, to the same integer or string or to an object;
    and two paths lead to one and the same object in the copy exactly
    when they do in the original. *)
Theorem clone_keeps_sharing (σ : store) (r : loc) (n : Node) (fuel : nat) :
  store_wf σ → read_Node σ r = Some n → class_depth n ≤ fuel →
  ∃ r' σ',
    clone fuel σ r = Some (r', σ')
    ∧ (∀ path w,
         resolve (cells σ) (VRef r) path = Some w →
         ∃ w', resolve (cells σ') (VRef r') path = Some w'
               ∧ match w with VRef _ => ∃ l', w' = VRef l' | _ => w' = w end)
    ∧ (∀ p q a b a' b',
         resolve (cells σ) (VRef r) p = Some (VRef a) →
         resolve (cells σ) (VRef r) q = Some (VRef b) →
         resolve (cells σ') (VRef r') p = Some (VRef a') →
         resolve (cells σ') (VRef r') q = Some (VRef b') →
         (a = b ↔ a' = b')).
Proof.
  intros Hwf (t & Ht & Hn)%read_Node_exact Hfuel.
  apply (snapshot_fuel _ fuel) in Ht; [|apply snapshot_depth in Ht; lia].
  destruct (clone_spec fuel σ r t Hwf Ht) as (r' & σ' & Hclone & Hsub & _).
  destruct (clone_deepcopy _ _ _ _ _ Hclone) as (s' & Hcopy & <-).
  destruct (deepcopy_memo _ _ _ _ _ Hcopy (memo_inv_start σ Hwf))
    as ((_ & _ & Hinj & Hrel) & (_ & _ & _ & Hwritten) & Hroot).
  assert (∀ x y, memo s' !! x = Some y →
                 ∃ o o', cells (heap s') !! x = Some o ∧ cells (heap s') !! y = Some o'
                         ∧ Forall2 (copy_of (memo s')) (slots o) (slots o')) as Hm.
  { intros x y Hy. destruct (Hwritten x y Hy) as [o' Ho']; [apply lookup_empty |].
    destruct (Hrel _ _ _ Hy Ho') as (o & Ho & _ & Hslots). by exists o, o'. }
  assert (∀ path w,
    resolve (cells σ) (VRef r) path = Some w →
    ∃ w', resolve (cells (heap s')) (VRef r') path = Some w'
          ∧ copy_of (memo s') w w') as Hpaths.
  { intros path w Hw. eapply resolve_copy; [exact Hm | exact Hroot |].
    by eapply resolve_weaken. }
  exists r', (heap s'). split; [done |]. split.
  - intros path w Hw. destruct (Hpaths _ _ Hw) as (w' & Hw' & Hcopy').
    exists w'. split; [done |]. destruct w as [z|str|l]; try done.
    destruct Hcopy' as (y & _ & ->). by exists y.
  - intros p q a b a' b' Ha Hb Ha' Hb'.
    destruct (Hpaths _ _ Ha) as (wa & Hwa & (ya & Hya & ->)).
    destruct (Hpaths _ _ Hb) as (wb & Hwb & (yb & Hyb & ->)).
    assert (ya = a') as -> by congruence.
    assert (yb = b') as -> by congruence.
    split; [intros ->; congruence | intros ->; by eapply Hinj].
Qed.

Lemma clone_keeps_sharing_witness :
  ∃ r' σ',
    clone 7 shared_store shared_net = Some (r', σ')
    ∧ (∀ path w,
         resolve (cells shared_store) (VRef shared_net) path = Some w →
         ∃ w', resolve (cells σ') (VRef r') path = Some w'
               ∧ match w with VRef _ => ∃ l', w' = VRef l' | _ => w' = w end)
    ∧ (∀ p q a b a' b',
         resolve (cells shared_store) (VRef shared_net) p = Some (VRef a) →
         resolve (cells shared_store) (VRef shared_net) q = Some (VRef b) →
         resolve (cells σ') (VRef r') p = Some (VRef a') →
         resolve (cells σ') (VRef r') q = Some (VRef b') →
         (a = b ↔ a' = b')).
Proof.
  apply (clone_keeps_sharing shared_store shared_net (NNetwork shared_Network) 7).
  - unfold store_wf. apply (bool_decide_unpack _). by vm_compute.
  - by vm_compute.
  - simpl. lia.
Defined.

(** In the network whose hosts hold one Cpu object, the paths
    [hosts[0].hw[0]] and [hosts[1].hw[0]] lead to the same object, in the
    original and in its clone, and to different objects in the two. *)
Example shared_cpu_paths :
  (resolve (cells shared_store) (VRef shared_net) [1; 0; 2; 0],
   resolve (cells shared_store) (VRef shared_net) [1; 1; 2; 0])
  = (Some (VRef 8), Some (VRef 8))
  ∧ (clone 7 shared_store shared_net ≫= λ '(r', σ'),
       Some (resolve (cells σ') (VRef r') [1; 0; 2; 0],
             resolve (cells σ') (VRef r') [1; 1; 2; 0]))
    = Some (Some (VRef 14), Some (VRef 14)).
Proof. by vm_compute. Qed.
